(** * Receiver side of the UDP-discovery / TCP file transfer

    A shallow embedding of [internal/receiver/receiver.go] and of the parts of
    the Go standard library it calls ([io.ReadFull], [binary.LittleEndian],
    [strings.Split], [path.Ext], [fmt.Errorf] with a [%s] verb), followed by
    the properties of the receive protocol.

    Go values are embedded as follows:
    - [[]byte]            as [list byte];
    - [string]            as [string] (a Go string is a byte sequence);
    - [uint32]            as [Z] in the range [0, 2^32);
    - [int] (the counter) as [Z] with the 64-bit wrap-around written out;
    - [error]             as the type [error] below, [nil] being [None];
    - [net.Conn]          as a script of read events ([Conn]);
    - the file system, the log and the scheduled write faults as [World];
    - everything the operating system decides (clock, dial, datagram) as [Env]. *)

From Stdlib Require Import ZArith List String Ascii Strings.Byte DecimalString Lia.
From stdpp Require Import gmap strings list fin_maps.

Local Open Scope string_scope.
Local Open Scope Z_scope.
Local Open Scope list_scope.

(* ===================================================================== *)
(** ** Go standard library: errors and formatting                         *)
(* ===================================================================== *)

(** [io.EOF] and [io.ErrUnexpectedEOF] are sentinel values compared by
    identity; every other error is only observed through its message. *)
Inductive error : Type :=
  | io_EOF
  | io_ErrUnexpectedEOF
  | errors_New (msg : string).

Definition Error (e : error) : string :=
  match e with
  | io_EOF => "EOF"
  | io_ErrUnexpectedEOF => "unexpected EOF"
  | errors_New msg => msg
  end.

(** [err == io.EOF] and [err == nil] *)
Definition is_EOF (e : error) : bool :=
  match e with io_EOF => true | _ => false end.

Definition is_nil (err : option error) : bool :=
  match err with None => true | Some _ => false end.

Definition is_EOF_err (err : option error) : bool :=
  match err with Some e => is_EOF e | None => false end.

(** [fmt.Errorf(prefix + "%s", err)]: without a [%w] verb the result is a
    fresh error that only carries the formatted text. *)
Definition Errorf (prefix : string) (err : error) : error :=
  errors_New (prefix +:+ Error err).

(** The [%d] verb. *)
Definition itoa (z : Z) : string := NilZero.string_of_int (Z.to_int z).

(* ===================================================================== *)
(** ** Go standard library: strings.Split and path.Ext                    *)
(* ===================================================================== *)

(** [strings.Split(s, sep)] for a separator of one byte: the pieces between
    consecutive occurrences of [sep]; [n] occurrences give [n + 1] pieces. *)
Fixpoint Split (s : string) (sep : ascii) : list string :=
  match s with
  | EmptyString => [EmptyString]
  | String c s' =>
      if Ascii.eqb c sep then EmptyString :: Split s' sep
      else match Split s' sep with
           | [] => [String c EmptyString]
           | p :: ps => String c p :: ps
           end
  end.

(** [path.Ext]:
<<
  for i := len(path) - 1; i >= 0 && path[i] != '/'; i-- {
      if path[i] == '.' { return path[i:] }
  }
  return ""
>>
    [Ext_scan p] runs the backward scan from the front: it returns the
    answer for [p] together with a flag telling whether the scan, coming
    from the right end, has already stopped (on a ['.'] or on a ['/'])
    inside [p]. *)
Fixpoint Ext_scan (p : string) : bool * string :=
  match p with
  | EmptyString => (false, EmptyString)
  | String c p' =>
      let '(stopped, ext) := Ext_scan p' in
      if stopped then (true, ext)
      else if Ascii.eqb c "/" then (true, EmptyString)
      else if Ascii.eqb c "." then (true, String c p')
      else (false, EmptyString)
  end.

Definition Ext (p : string) : string := snd (Ext_scan p).

(* ===================================================================== *)
(** ** Go standard library: encoding/binary                               *)
(* ===================================================================== *)

Definition byte_val (b : byte) : Z := Z.of_N (Byte.to_N b).

(** [byte(v)]: the conversion of an unsigned integer to a byte keeps the
    low eight bits. *)
Definition byte_of_Z (v : Z) : byte :=
  match Byte.of_N (Z.to_N (v mod 256)) with
  | Some b => b
  | None => x00
  end.

(** [binary.LittleEndian.Uint32(b)]:
    [uint32(b[0]) | uint32(b[1])<<8 | uint32(b[2])<<16 | uint32(b[3])<<24].
    The index expression [b[3]] panics on a shorter slice ([None]). *)
Definition Uint32 (b : list byte) : option Z :=
  match b with
  | b0 :: b1 :: b2 :: b3 :: _ =>
      Some (Z.lor (byte_val b0)
           (Z.lor (Z.shiftl (byte_val b1) 8)
           (Z.lor (Z.shiftl (byte_val b2) 16)
                  (Z.shiftl (byte_val b3) 24))))
  | _ => None
  end.

(** For the round trip, the encoding as the specification words it: the
    length "as a 4-byte little-endian unsigned integer", that is
    [binary.LittleEndian.PutUint32]:
    [b[0] = byte(v); b[1] = byte(v >> 8); b[2] = byte(v >> 16);
     b[3] = byte(v >> 24)]. *)
Definition PutUint32 (v : Z) : list byte :=
  [byte_of_Z v; byte_of_Z (Z.shiftr v 8);
   byte_of_Z (Z.shiftr v 16); byte_of_Z (Z.shiftr v 24)].

(** The name frame of the specification: the encoded length of the
    payload "followed by [L] arbitrary payload bytes". *)
Definition encode_frame (payload : list byte) : list byte :=
  PutUint32 (Z.of_nat (length payload)) ++ payload.

(* ===================================================================== *)
(** ** The connection: net.Conn as a script of read events                *)
(* ===================================================================== *)

(** What the peer and the transport will make the successive [Read] calls
    return.  [Data bs]: the bytes [bs] arrive and are handed out with a nil
    error.  [Fail bs e]: the bytes [bs] are handed out together with the
    error [e]; the [io.Reader] contract allows a positive count with a
    non-nil error, [io.EOF] included; the [*net.TCPConn] that [Handle]
    dials returns an error only with a count of 0, that is [Fail [] e].
    Once the script is used up the connection is at end of stream and
    every read returns [(0, io.EOF)]. *)
Inductive event : Type :=
  | Data (bs : list byte)
  | Fail (bs : list byte) (e : error).

(** [trace] is a ghost record of every read performed so far: the count
    and the error each call returned. *)
Record Conn : Type := mkConn {
  script : list event;
  trace : list (nat * option error)
}.

Definition dial_script (s : list event) : Conn := mkConn s [].

(** [con.Read(buf)] with [len(buf) = len].  A read into an empty buffer
    returns [(0, nil)] at once.  An event larger than the buffer is handed
    out in pieces. *)
Definition Read (c : Conn) (len : nat) : list byte * option error * Conn :=
  let '(bs, err, rest) :=
    match len, script c with
    | O, s => ([], None, s)
    | _, [] => ([], Some io_EOF, [])
    | _, Data bs :: s =>
        if (length bs <=? len)%nat then (bs, None, s)
        else (take len bs, None, Data (drop len bs) :: s)
    | _, Fail bs e :: s =>
        if (length bs <=? len)%nat then (bs, Some e, s)
        else (take len bs, None, Fail (drop len bs) e :: s)
    end in
  (bs, err, mkConn rest (trace c ++ [(length bs, err)])).

(** The bytes a script still holds, and a bound on the number of reads
    into a non-empty buffer that it can answer before end of stream. *)
Definition event_bytes (ev : event) : list byte :=
  match ev with Data bs => bs | Fail bs _ => bs end.

Definition pending (s : list event) : list byte := concat (map event_bytes s).

Fixpoint weight (s : list event) : nat :=
  match s with
  | [] => O
  | ev :: s' => S (length (event_bytes ev) + weight s')
  end.

(* ===================================================================== *)
(** ** Go standard library: io.ReadAtLeast and io.ReadFull                *)
(* ===================================================================== *)

(** The loop of [io.ReadAtLeast]:
    [for n < min && err == nil { nn, err = r.Read(buf[n:]); n += nn }].
    [got] is the filled part of the buffer, so [n = length got].  [None]
    stands for a loop that has not finished within [fuel] reads. *)
Fixpoint ReadAtLeast_loop (fuel : nat) (c : Conn) (len min : nat)
    (got : list byte) (err : option error)
    : option (list byte * option error * Conn) :=
  if (length got <? min)%nat && is_nil err then
    match fuel with
    | O => None
    | S fuel' =>
        let '(bs, err', c') := Read c (len - length got) in
        ReadAtLeast_loop fuel' c' len min (got ++ bs) err'
    end
  else Some (got, err, c).

Definition ReadAtLeast (fuel : nat) (c : Conn) (len min : nat)
    : option (list byte * option error * Conn) :=
  if (len <? min)%nat then Some ([], Some (errors_New "short buffer"), c)
  else
    match ReadAtLeast_loop fuel c len min [] None with
    | None => None
    | Some (got, err, c') =>
        if (min <=? length got)%nat then Some (got, None, c')
        else if (0 <? length got)%nat && is_EOF_err err
        then Some (got, Some io_ErrUnexpectedEOF, c')
        else Some (got, err, c')
    end.

(** [io.ReadFull(r, buf)] is [ReadAtLeast(r, buf, len(buf))].  On a script
    the loop ends within [S (weight (script c))] reads
    ([ReadFull_terminates] below). *)
Definition ReadFull (c : Conn) (len : nat)
    : option (list byte * option error * Conn) :=
  ReadAtLeast (S (weight (script c))) c len len.

(* ===================================================================== *)
(** ** The world outside the process                                      *)
(* ===================================================================== *)

(** Go's [(value, error)] results. *)
Inductive result (T : Type) : Type :=
  | Ok (v : T)
  | Err (e : error).
Arguments Ok {T} v.
Arguments Err {T} e.

(** The mutable part: the files of the working directory with their
    contents, the lines written by [log.Printf], and the outcome scheduled
    for each coming [file.Write]: [None] for a complete write,
    [Some (k, e)] for a write that stores at most [k] bytes and returns the
    error [e].  Writes beyond the schedule are complete. *)
Record World : Type := mkWorld {
  fs : gmap string (list byte);
  logs : list string;
  write_faults : list (option (nat * error))
}.

(** The part decided by the operating system and the network. *)
Record Env : Type := mkEnv {
  unix_now : Z;                          (* time.Now().Unix() *)
  listen_fault : nat -> option error;    (* net.ListenUDP on a port *)
  datagram : error + list byte;          (* what ReadFromUDP meets *)
  dial : string -> error + Conn;         (* net.Dial("tcp", address) *)
  create_fault : string -> option error; (* os.Create *)
  close_fault : option error             (* con.Close *)
}.

Record File : Type := mkFile { fname : string }.

(** [log.Printf] *)
Definition log_Printf (line : string) (w : World) : World :=
  mkWorld (fs w) (logs w ++ [line]) (write_faults w).

(** [os.Create(name)]: creates the file or truncates an existing one. *)
Definition os_Create (env : Env) (name : string) (w : World)
    : result File * World :=
  match create_fault env name with
  | Some e => (Err e, w)
  | None =>
      (Ok (mkFile name),
       mkWorld (<[name := []]> (fs w)) (logs w) (write_faults w))
  end.

(** [file.Write(b)] on a file that is only written sequentially: the bytes
    stored are appended to the contents. *)
Definition Write (file : File) (b : list byte) (w : World)
    : nat * option error * World :=
  let '(n, err, faults) :=
    match write_faults w with
    | [] => (length b, None, [])
    | None :: faults => (length b, None, faults)
    | Some (k, e) :: faults => (Nat.min k (length b), Some e, faults)
    end in
  (n, err,
   mkWorld (alter (fun old => old ++ take n b) (fname file) (fs w))
           (logs w) faults).

(** [con.ReadFromUDP(buffer)]: one datagram is copied into the buffer, and
    what does not fit is dropped by the socket layer. *)
Definition ReadFromUDP (env : Env) (buffer : list byte)
    : error + (nat * list byte) :=
  match datagram env with
  | inl e => inl e
  | inr d =>
      let n := Nat.min (length d) (length buffer) in
      inr (n, take n d ++ drop n buffer)
  end.

(** The addition of Go's 64-bit [int]. *)
Definition int_add (a b : Z) : Z := (a + b + 2 ^ 63) mod 2 ^ 64 - 2 ^ 63.

(* ===================================================================== *)
(** ** receiver.go                                                        *)
(* ===================================================================== *)

Record Receiver : Type := NewReceiver {
  chunkSize : nat;
  udpDiscoveryPort : nat
}.

(** A result of [None] below stands for a call that does not return: a
    loop that has not finished within its fuel, or a panic. *)

Definition discover (r : Receiver) (env : Env) : option (result string) :=
  match listen_fault env (udpDiscoveryPort r) with
  | Some err => Some (Err (Errorf "err starting up udp listener: " err))
  | None =>
      let buffer := replicate 1024 x00 in
      match ReadFromUDP env buffer with
      | inl err => Some (Err (Errorf "err reading from udp: " err))
      | inr (byteSize, buffer) =>
          let message := string_of_list_byte (take byteSize buffer) in
          let messageSections := Split message " " in
          match last messageSections with
          | None => None
          | Some port => Some (Ok ("localhost:" +:+ port))
          end
      end
  end.

Definition receiveFileNameLen (r : Receiver) (con : Conn)
    : option (result Z * Conn) :=
  match ReadFull con 4 with
  | None => None
  | Some (_, Some err, con') =>
      Some (Err (Errorf "err receiving file name length: " err), con')
  | Some (lenBuf, None, con') =>
      match Uint32 lenBuf with
      | None => None
      | Some fileNameLen => Some (Ok fileNameLen, con')
      end
  end.

Definition receiveFileName (r : Receiver) (con : Conn)
    : option (result string * Conn) :=
  match receiveFileNameLen r con with
  | None => None
  | Some (Err err, con') =>
      Some (Err (Errorf "err receiving file name len: " err), con')
  | Some (Ok fileNameLen, con') =>
      match ReadFull con' (Z.to_nat fileNameLen) with
      | None => None
      | Some (_, Some err, con'') =>
          Some (Err (Errorf "err receiving file name: " err), con'')
      | Some (nameBuf, None, con'') =>
          Some (Ok (string_of_list_byte nameBuf), con'')
      end
  end.

Definition prepareDestFilePath (r : Receiver) (env : Env) (filePath : string)
    : string :=
  let fileExt := Ext filePath in
  itoa (unix_now env) +:+ fileExt.

(** The [for] loop of [receiveAndSaveFileContent]; [inl total] is the
    [break], [inr err] a [return] from inside the loop. *)
Fixpoint content_loop (fuel : nat) (r : Receiver) (con : Conn) (file : File)
    (w : World) (totalBytesReceived : Z)
    : option ((Z + error) * Conn * World) :=
  match fuel with
  | O => None
  | S fuel' =>
      let '(chunk, err, con') := Read con (chunkSize r) in
      match err with
      | Some err =>
          if is_EOF err then Some (inl totalBytesReceived, con', w)
          else Some (inr (Errorf "err receiving file chunk: " err), con', w)
      | None =>
          let totalBytesReceived :=
            int_add totalBytesReceived (Z.of_nat (length chunk)) in
          let '(_, err, w') := Write file chunk w in
          match err with
          | Some err =>
              Some (inr (Errorf "err writing chunk to the file: " err),
                    con', w')
          | None => content_loop fuel' r con' file w' totalBytesReceived
          end
      end
  end.

Definition receiveAndSaveFileContent (fuel : nat) (r : Receiver) (con : Conn)
    (file : File) (w : World) : option (option error * Conn * World) :=
  match content_loop fuel r con file w 0 with
  | None => None
  | Some (inr err, con', w') => Some (Some err, con', w')
  | Some (inl totalBytesReceived, con', w') =>
      Some (None, con',
            log_Printf ("received " +:+ itoa totalBytesReceived
                        +:+ " bytes from the sender") w')
  end.

(** [defer file.Close()] releases the handle and leaves the contents as
    they are, so it does not show in [World]. *)
Definition receiveFile (fuel : nat) (r : Receiver) (env : Env) (con : Conn)
    (w : World) : option (option error * Conn * World) :=
  match receiveFileName r con with
  | None => None
  | Some (Err err, con') =>
      Some (Some (Errorf "err receiving file name: " err), con', w)
  | Some (Ok filePath, con') =>
      let destFilePath := prepareDestFilePath r env filePath in
      match os_Create env destFilePath w with
      | (Err err, w') =>
          Some (Some (Errorf "err creating dest file: " err), con', w')
      | (Ok file, w') =>
          match receiveAndSaveFileContent fuel r con' file w' with
          | None => None
          | Some (Some err, con'', w'') =>
              Some (Some (Errorf "err receiving and saving file content: "
                                 err), con'', w'')
          | Some (None, con'', w'') => Some (None, con'', w'')
          end
      end
  end.

(** The [for _, peer := range peers] loop of [Handle]. *)
Fixpoint Handle_range (fuel : nat) (r : Receiver) (env : Env)
    (peers : list string) (w : World) : option (option error * World) :=
  match peers with
  | [] => Some (None, w)
  | peer :: peers' =>
      match dial env peer with
      | inl err =>
          let w := log_Printf ("err connecting to peer: " +:+ Error err) w in
          Handle_range fuel r env peers' w
      | inr con =>
          let w := log_Printf ("connected to peer: " +:+ peer) w in
          match receiveFile fuel r env con w with
          | None => None
          | Some (Some err, _, w') =>
              Some (Some (Errorf "err receiving file: " err), w')
          | Some (None, _, w') =>
              match close_fault env with
              | Some err =>
                  Some (Some (Errorf "err closing connection: " err), w')
              | None => Handle_range fuel r env peers' w'
              end
          end
      end
  end.

Definition Handle (fuel : nat) (r : Receiver) (env : Env) (w : World)
    : option (option error * World) :=
  match discover r env with
  | None => None
  | Some (Err err) =>
      Some (Some (Errorf "err searching for discovery msg: " err), w)
  | Some (Ok peer) =>
      let peers := [peer] in
      Handle_range fuel r env peers w
  end.

(* ===================================================================== *)
(** ** Notions used in the statements                                     *)
(* ===================================================================== *)

(** What [io.ReadFull] reports when the stream ends early: [io.EOF] if
    nothing was read, [io.ErrUnexpectedEOF] after a partial read. *)
Definition close_error (got : list byte) : error :=
  match got with
  | [] => io_EOF
  | _ :: _ => io_ErrUnexpectedEOF
  end.

(** The range of Go's 64-bit [int]. *)
Definition in_int (z : Z) : Prop := - 2 ^ 63 <= z < 2 ^ 63.

(** [contains c s]: the byte [c] occurs in [s]. *)
Fixpoint contains (c : ascii) (s : string) : bool :=
  match s with
  | EmptyString => false
  | String c' s' => Ascii.eqb c' c || contains c s'
  end.

(** The same environment with another datagram on the wire. *)
Definition with_datagram (env : Env) (d : list byte) : Env :=
  mkEnv (unix_now env) (listen_fault env) (inr d) (dial env)
        (create_fault env) (close_fault env).

(** For comparison, the parse as the specification words it: "splits on
    whitespace, and takes the final token as the service port".  The
    tokens are the maximal runs of non-whitespace bytes. *)
Definition is_space (c : ascii) : bool :=
  Ascii.eqb c " " || Ascii.eqb c "009" || Ascii.eqb c "010"
  || Ascii.eqb c "011" || Ascii.eqb c "012" || Ascii.eqb c "013".

Fixpoint whitespace_tokens (s : string) (token : option string)
    : list string :=
  match s with
  | EmptyString => match token with Some t => [t] | None => [] end
  | String c s' =>
      if is_space c
      then match token with Some t => [t] | None => [] end
           ++ whitespace_tokens s' None
      else whitespace_tokens s'
             (Some (match token with Some t => t | None => "" end
                    +:+ String c ""))
  end.

Definition spec_whitespace_address (message : string) : option string :=
  match last (whitespace_tokens message None) with
  | Some port => Some ("localhost:" +:+ port)
  | None => None
  end.

(** For comparison, the extension as the specification words it: "the
    substring from (and including) the last [.] to the end of the name, or
    the empty string if no [.] is present". *)
Fixpoint spec_last_dot_suffix (name : string) : string :=
  match name with
  | EmptyString => EmptyString
  | String c rest =>
      if contains "." rest then spec_last_dot_suffix rest
      else if Ascii.eqb c "." then name else EmptyString
  end.

(** A run used to exercise the statements: the sender announces port 9000,
    sends the name "a.b" and the bytes "xyz", and then the connection is
    reset. *)
Definition reset_env : Env :=
  mkEnv 1718000000 (fun _ => None)
    (inr (list_byte_of_string "HELLO 9000"))
    (fun _ => inr (dial_script
       [Data (encode_frame (list_byte_of_string "a.b")
              ++ list_byte_of_string "xyz");
        Fail [] (errors_New "connection reset by peer")]))
    (fun _ => None) None.

(* ===================================================================== *)
(** * Properties                                                          *)
(* ===================================================================== *)

(** ** The little-endian length codec *)

Lemma byte_val_range (b : byte) : 0 <= byte_val b < 256.
Proof. destruct b; vm_compute; split; congruence. Qed.

Lemma byte_val_byte_of_Z (v : Z) : byte_val (byte_of_Z v) = v mod 256.
Proof.
  unfold byte_val, byte_of_Z.
  assert (Hr : 0 <= v mod 256 < 256) by (apply Z.mod_pos_bound; lia).
  destruct (Byte.of_N (Z.to_N (v mod 256))) as [b|] eqn:Hb.
  - apply Byte.to_of_N in Hb. rewrite Hb. apply Z2N.id. lia.
  - apply Byte.of_N_None_iff in Hb. lia.
Qed.

Lemma byte_of_Z_byte_val (b : byte) : byte_of_Z (byte_val b) = b.
Proof. destruct b; reflexivity. Qed.

(** Bit [n] of the byte taken at offset [k] of [v], moved back in place. *)
Lemma testbit_byte_at (v k n : Z) :
  0 <= k -> 0 <= n ->
  Z.testbit (Z.shiftl (Z.shiftr v k mod 256) k) n
  = if (k <=? n) && (n <? k + 8) then Z.testbit v n else false.
Proof.
  intros Hk Hn. rewrite Z.shiftl_spec by lia.
  destruct (Z.leb_spec k n); simpl.
  - change 256 with (2 ^ 8). destruct (Z.ltb_spec n (k + 8)).
    + rewrite Z.mod_pow2_bits_low by lia.
      rewrite Z.shiftr_spec by lia. f_equal. lia.
    + apply Z.mod_pow2_bits_high. lia.
  - apply Z.testbit_neg_r. lia.
Qed.

Lemma Uint32_PutUint32 (v : Z) (rest : list byte) :
  0 <= v < 2 ^ 32 -> Uint32 (PutUint32 v ++ rest) = Some v.
Proof.
  intros Hv. unfold PutUint32. cbn [app Uint32]. f_equal.
  rewrite !byte_val_byte_of_Z.
  rewrite <- (Z.shiftr_0_r v) at 1. rewrite <- (Z.shiftl_0_r (_ mod 256)) at 1.
  apply Z.bits_inj'. intros n Hn.
  rewrite !Z.lor_spec, !testbit_byte_at by lia.
  destruct (Z.ltb_spec n 32) as [Hlt|Hge].
  - destruct (Z.leb_spec 0 n), (Z.ltb_spec n (0 + 8)), (Z.leb_spec 8 n),
      (Z.ltb_spec n (8 + 8)), (Z.leb_spec 16 n), (Z.ltb_spec n (16 + 8)),
      (Z.leb_spec 24 n), (Z.ltb_spec n (24 + 8)); simpl;
      try lia; rewrite ?orb_false_r; reflexivity.
  - assert (Hhigh : Z.testbit v n = false).
    { destruct (Z.eq_dec v 0) as [->|Hnz]; [apply Z.bits_0|].
      apply Z.bits_above_log2; [lia|].
      assert (Z.log2 v < 32) by (apply Z.log2_lt_pow2; lia). lia. }
    destruct (Z.leb_spec 0 n), (Z.ltb_spec n (0 + 8)), (Z.leb_spec 8 n),
      (Z.ltb_spec n (8 + 8)), (Z.leb_spec 16 n), (Z.ltb_spec n (16 + 8)),
      (Z.leb_spec 24 n), (Z.ltb_spec n (24 + 8)); simpl;
      try lia; rewrite ?Hhigh; reflexivity.
Qed.

(** The decoder yields a [uint32]. *)
Lemma Uint32_range (b : list byte) (v : Z) :
  Uint32 b = Some v -> 0 <= v < 2 ^ 32.
Proof.
  destruct b as [|b0 [|b1 [|b2 [|b3 b]]]]; try discriminate.
  intros [= <-].
  pose proof (byte_val_range b0). pose proof (byte_val_range b1).
  pose proof (byte_val_range b2). pose proof (byte_val_range b3).
  split.
  - repeat (apply Z.lor_nonneg; split); try apply Z.shiftl_nonneg; lia.
  - assert (Hlog : forall x, 0 <= x < 2 ^ 32 -> x = 0 \/ Z.log2 x < 32).
    { intros x Hx. destruct (Z.eq_dec x 0); [now left|right].
      apply Z.log2_lt_pow2; lia. }
    assert (Hsh : forall x k, 0 <= x < 256 -> 0 <= k <= 24 ->
                              0 <= Z.shiftl x k < 2 ^ 32).
    { intros x k Hx Hk. rewrite Z.shiftl_mul_pow2 by lia. split; [nia|].
      assert (2 ^ k <= 2 ^ 24) by (apply Z.pow_le_mono_r; lia).
      change (2 ^ 32) with (256 * 2 ^ 24). nia. }
    assert (Hlor : forall x y, 0 <= x < 2 ^ 32 -> 0 <= y < 2 ^ 32 ->
                               0 <= Z.lor x y < 2 ^ 32).
    { intros x y Hx Hy. split; [apply Z.lor_nonneg; lia|].
      destruct (Z.eq_dec (Z.lor x y) 0) as [->|Hnz]; [lia|].
      apply Z.log2_lt_pow2; [assert (0 <= Z.lor x y) by (apply Z.lor_nonneg; lia); lia|].
      rewrite Z.log2_lor by lia.
      destruct (Hlog x Hx) as [->|], (Hlog y Hy) as [->|];
        change (Z.log2 0) with 0; lia. }
    apply Hlor; [lia|]. apply Hlor; [apply Hsh; lia|].
    apply Hlor; apply Hsh; lia.
Qed.

(** ** Reading from a connection *)

Lemma Read_closed (c : Conn) (len : nat) :
  script c = [] -> (0 < len)%nat ->
  exists c', Read c len = ([], Some io_EOF, c') /\ script c' = [].
Proof.
  intros Hs Hlen. unfold Read. rewrite Hs.
  destruct len; [lia|]. eexists; split; reflexivity.
Qed.

Lemma Read_Data_whole (c : Conn) (len : nat) bs s :
  script c = Data bs :: s -> (0 < len)%nat -> (length bs <= len)%nat ->
  exists c', Read c len = (bs, None, c') /\ script c' = s
             /\ trace c' = trace c ++ [(length bs, None)].
Proof.
  intros Hs Hlen Hfit. unfold Read. rewrite Hs.
  destruct len as [|len]; [lia|].
  destruct (Nat.leb_spec (length bs) (S len)); [|lia].
  eexists; repeat split; reflexivity.
Qed.

Lemma Read_Data_part (c : Conn) (len : nat) bs s :
  script c = Data bs :: s -> (0 < len)%nat -> (len < length bs)%nat ->
  exists c', Read c len = (take len bs, None, c')
             /\ script c' = Data (drop len bs) :: s.
Proof.
  intros Hs Hlen Hbig. unfold Read. rewrite Hs.
  destruct len as [|len]; [lia|].
  destruct (Nat.leb_spec (length bs) (S len)); [lia|].
  eexists; split; reflexivity.
Qed.

Lemma Read_Fail_whole (c : Conn) (len : nat) bs e s :
  script c = Fail bs e :: s -> (0 < len)%nat -> (length bs <= len)%nat ->
  exists c', Read c len = (bs, Some e, c') /\ script c' = s
             /\ trace c' = trace c ++ [(length bs, Some e)].
Proof.
  intros Hs Hlen Hfit. unfold Read. rewrite Hs.
  destruct len as [|len]; [lia|].
  destruct (Nat.leb_spec (length bs) (S len)); [|lia].
  eexists; repeat split; reflexivity.
Qed.

(** A read never returns more than the buffer holds, it appends exactly
    one entry to the trace, and into a non-empty buffer it either makes
    the script lighter or reports the end of the stream. *)
Lemma Read_length (c : Conn) (len : nat) bs err c' :
  Read c len = (bs, err, c') -> (length bs <= len)%nat.
Proof.
  unfold Read. destruct len as [|len], (script c) as [|[ch|ch e] s];
    try (intros [= <- _ _]; simpl; lia);
    destruct (Nat.leb_spec (length ch) (S len));
    intros [= <- _ _]; rewrite ?length_take; lia.
Qed.

Lemma Read_trace (c : Conn) (len : nat) bs err c' :
  Read c len = (bs, err, c') -> trace c' = trace c ++ [(length bs, err)].
Proof.
  unfold Read.
  destruct (match len, script c with
            | O, s => _ | _, [] => _ | _, Data _ :: _ => _
            | _, Fail _ _ :: _ => _ end) as [[bs0 err0] rest].
  intros [= <- <- <-]. reflexivity.
Qed.

Lemma Read_weight (c : Conn) (len : nat) bs err c' :
  (0 < len)%nat -> Read c len = (bs, err, c') ->
  (weight (script c') < weight (script c))%nat
  \/ (script c = [] /\ script c' = [] /\ err = Some io_EOF).
Proof.
  intros Hlen. unfold Read. destruct len as [|len]; [lia|].
  destruct (script c) as [|[ch|ch e] s].
  - intros [= _ <- <-]. right. auto.
  - destruct (Nat.leb_spec (length ch) (S len)); intros [= _ _ <-]; left;
      simpl; rewrite ?length_drop; lia.
  - destruct (Nat.leb_spec (length ch) (S len)); intros [= _ _ <-]; left;
      simpl; rewrite ?length_drop; lia.
Qed.

(** ** io.ReadFull *)

Lemma ReadAtLeast_loop_eq fuel c len min got err :
  ReadAtLeast_loop fuel c len min got err =
  if (length got <? min)%nat && is_nil err then
    match fuel with
    | O => None
    | S fuel' =>
        let '(bs, err', c') := Read c (len - length got) in
        ReadAtLeast_loop fuel' c' len min (got ++ bs) err'
    end
  else Some (got, err, c).
Proof. destruct fuel; reflexivity. Qed.

(** The loop of [io.ReadAtLeast] ends on every script. *)
Lemma ReadAtLeast_loop_terminates fuel :
  forall c len min got err,
    (min <= len)%nat -> (weight (script c) < fuel)%nat ->
    exists out, ReadAtLeast_loop fuel c len min got err = Some out.
Proof.
  induction fuel as [|fuel IH]; intros c len min got err Hmin Hw; [lia|].
  rewrite ReadAtLeast_loop_eq.
  destruct ((length got <? min)%nat && is_nil err) eqn:Hcond; [|eauto].
  apply andb_prop in Hcond as [Hlt _]. apply Nat.ltb_lt in Hlt.
  destruct (Read c (len - length got)) as [[bs err'] c'] eqn:HR.
  assert (Hpos : (0 < len - length got)%nat) by lia.
  destruct (Read_weight _ _ _ _ _ Hpos HR) as [Hless|(Hs & Hs' & ->)].
  - apply IH; lia.
  - rewrite ReadAtLeast_loop_eq. simpl. rewrite andb_false_r. eauto.
Qed.

(** When the loop is left, the buffer is full or an error is pending. *)
Lemma ReadAtLeast_loop_exit fuel :
  forall c len min got err got' err' c',
    ReadAtLeast_loop fuel c len min got err = Some (got', err', c') ->
    (min <= length got')%nat \/ err' <> None.
Proof.
  induction fuel as [|fuel IH]; intros c len min got err got' err' c';
    rewrite ReadAtLeast_loop_eq;
    destruct ((length got <? min)%nat && is_nil err) eqn:Hcond;
    try discriminate.
  - intros [= <- <- <-]. apply andb_false_iff in Hcond as [H|H].
    + apply Nat.ltb_ge in H. auto.
    + destruct err; [right; discriminate|discriminate].
  - destruct (Read c (len - length got)) as [[bs e1] c1]. apply IH.
  - intros [= <- <- <-]. apply andb_false_iff in Hcond as [H|H].
    + apply Nat.ltb_ge in H. auto.
    + destruct err; [right; discriminate|discriminate].
Qed.

Lemma ReadFull_terminates (c : Conn) (len : nat) :
  exists out, ReadFull c len = Some out.
Proof.
  unfold ReadFull, ReadAtLeast. rewrite Nat.ltb_irrefl.
  destruct (ReadAtLeast_loop_terminates (S (weight (script c))) c len len
              [] None) as [[[got err] c'] ->]; [lia..|].
  destruct (len <=? length got)%nat; [eauto|].
  destruct ((0 <? length got)%nat && is_EOF_err err); eauto.
Qed.

(** A successful [io.ReadFull] has filled the whole buffer. *)
Lemma ReadFull_nil_length (c : Conn) (len : nat) got c' :
  ReadFull c len = Some (got, None, c') -> (len <= length got)%nat.
Proof.
  unfold ReadFull, ReadAtLeast. rewrite Nat.ltb_irrefl.
  destruct (ReadAtLeast_loop _ c len len [] None) as [[[g e] c1]|] eqn:HL;
    [|discriminate].
  apply ReadAtLeast_loop_exit in HL.
  destruct (Nat.leb_spec len (length g)).
  - intros [= <- _]. assumption.
  - destruct ((0 <? length g)%nat && is_EOF_err e); [discriminate|].
    intros [= <- -> _]. destruct HL; [lia|congruence].
Qed.

Lemma weight_chunks (chunks : list (list byte)) (tail : list event) :
  (length chunks <= weight (map Data chunks ++ tail))%nat.
Proof. induction chunks as [|ch chunks IH]; simpl; lia. Qed.

(** The stream is cut into arbitrary chunks; the loop collects the first
    [length a] bytes of it and leaves the rest of the stream in place. *)
Lemma ReadAtLeast_loop_exact (chunks : list (list byte)) :
  forall fuel c tail want got a b,
    script c = map Data chunks ++ tail ->
    concat chunks = a ++ b ->
    (length got + length a = want)%nat ->
    (length chunks < fuel)%nat ->
    exists c' chunks',
      ReadAtLeast_loop fuel c want want got None = Some (got ++ a, None, c')
      /\ script c' = map Data chunks' ++ tail
      /\ concat chunks' = b.
Proof.
  induction chunks as [|ch chunks IH]; intros fuel c tail want got a b
    Hs Hcat Hlen Hfuel; rewrite ReadAtLeast_loop_eq.
  - symmetry in Hcat. apply app_eq_nil in Hcat as [-> ->].
    replace (length got <? want)%nat with false
      by (symmetry; apply Nat.ltb_ge; simpl in Hlen; lia).
    rewrite app_nil_r. exists c, []. auto.
  - destruct (Nat.eq_dec (length a) 0%nat) as [Hz|Hpos].
    { apply nil_length_inv in Hz. subst a.
      replace (length got <? want)%nat with false
        by (symmetry; apply Nat.ltb_ge; simpl in Hlen; lia).
      rewrite app_nil_r. exists c, (ch :: chunks). auto. }
    replace (length got <? want)%nat with true
      by (symmetry; apply Nat.ltb_lt; lia).
    simpl andb. cbv iota. destruct fuel as [|fuel]; [lia|].
    replace (want - length got)%nat with (length a) by lia.
    cbn [map concat app] in Hs, Hcat.
    destruct (Nat.le_gt_cases (length ch) (length a)) as [Hfit|Hbig].
    + destruct (Read_Data_whole c (length a) ch _ Hs)
        as (c1 & -> & Hs1 & _); [lia|assumption|].
      assert (Hsplit : a = ch ++ drop (length ch) a).
      { rewrite <- (take_drop (length ch) a) at 1. f_equal.
        apply (f_equal (take (length ch))) in Hcat.
        rewrite take_app_length in Hcat.
        rewrite take_app_le in Hcat by assumption. congruence. }
      destruct (IH fuel c1 tail want (got ++ ch) (drop (length ch) a) b Hs1)
        as (c' & chunks' & HL & Hs' & Hcat').
      * rewrite Hsplit, <- app_assoc in Hcat.
        apply app_inv_head in Hcat. assumption.
      * rewrite length_app, length_drop. lia.
      * simpl in Hfuel. lia.
      * exists c', chunks'. rewrite HL, <- app_assoc, <- Hsplit. auto.
    + destruct (Read_Data_part c (length a) ch _ Hs)
        as (c1 & -> & Hs1); [lia|assumption|].
      assert (Htake : take (length a) ch = a).
      { apply (f_equal (take (length a))) in Hcat.
        rewrite take_app_le in Hcat by lia.
        rewrite take_app_length in Hcat. assumption. }
      rewrite ReadAtLeast_loop_eq, Htake.
      replace (length (got ++ a) <? want)%nat with false
        by (symmetry; apply Nat.ltb_ge; rewrite length_app; lia).
      exists c1, (drop (length a) ch :: chunks).
      split; [reflexivity|]. split; [assumption|].
      cbn [concat]. apply (f_equal (drop (length a))) in Hcat.
      rewrite drop_app_le in Hcat by lia.
      rewrite drop_app_length in Hcat. assumption.
Qed.

(** The connection closes before [want] bytes have arrived. *)
Lemma ReadAtLeast_loop_short (chunks : list (list byte)) :
  forall fuel c want got,
    script c = map Data chunks ->
    (length got + length (concat chunks) < want)%nat ->
    (length chunks < fuel)%nat ->
    exists c',
      ReadAtLeast_loop fuel c want want got None
      = Some (got ++ concat chunks, Some io_EOF, c')
      /\ script c' = [].
Proof.
  induction chunks as [|ch chunks IH]; intros fuel c want got Hs Hlen Hfuel;
    rewrite ReadAtLeast_loop_eq;
    (replace (length got <? want)%nat with true
       by (symmetry; apply Nat.ltb_lt; lia));
    simpl andb; cbv iota; (destruct fuel as [|fuel]; [lia|]).
  - destruct (Read_closed c (want - length got) Hs) as (c1 & -> & Hs1);
      [simpl in Hlen; lia|].
    rewrite ReadAtLeast_loop_eq. simpl. rewrite andb_false_r.
    exists c1. auto.
  - simpl in Hs, Hlen, Hfuel. rewrite length_app in Hlen.
    destruct (Read_Data_whole c (want - length got) ch _ Hs)
      as (c1 & -> & Hs1 & _); [lia..|].
    destruct (IH fuel c1 want (got ++ ch) Hs1) as (c' & HL & Hs');
      [rewrite length_app; lia|lia|].
    exists c'. rewrite HL. simpl. rewrite <- app_assoc. auto.
Qed.

Lemma ReadFull_exact (c : Conn) chunks tail a b :
  script c = map Data chunks ++ tail ->
  concat chunks = a ++ b ->
  exists c' chunks',
    ReadFull c (length a) = Some (a, None, c')
    /\ script c' = map Data chunks' ++ tail
    /\ concat chunks' = b.
Proof.
  intros Hs Hcat. unfold ReadFull, ReadAtLeast. rewrite Nat.ltb_irrefl.
  destruct (ReadAtLeast_loop_exact chunks (S (weight (script c))) c tail
              (length a) [] a b Hs Hcat)
    as (c' & chunks' & -> & Hs' & Hcat'); [reflexivity| |].
  { rewrite Hs. pose proof (weight_chunks chunks tail). lia. }
  simpl. rewrite Nat.leb_refl. eauto.
Qed.

Lemma ReadFull_short (c : Conn) chunks len :
  script c = map Data chunks ->
  (length (concat chunks) < len)%nat ->
  exists c',
    ReadFull c len
    = Some (concat chunks,
            Some (match concat chunks with
                  | [] => io_EOF
                  | _ :: _ => io_ErrUnexpectedEOF
                  end), c')
    /\ script c' = [].
Proof.
  intros Hs Hlen. unfold ReadFull, ReadAtLeast. rewrite Nat.ltb_irrefl.
  destruct (ReadAtLeast_loop_short chunks (S (weight (script c))) c len []
              Hs) as (c' & -> & Hs'); [simpl; lia| |].
  { rewrite Hs. pose proof (weight_chunks chunks []).
    rewrite app_nil_r in *. lia. }
  simpl. destruct (Nat.leb_spec len (length (concat chunks))); [lia|].
  exists c'. split; [|assumption].
  destruct (concat chunks); reflexivity.
Qed.

(** ** The handshake: name length and name *)

Lemma ReadFull_zero (c : Conn) : ReadFull c 0 = Some ([], None, c).
Proof.
  unfold ReadFull, ReadAtLeast. rewrite ReadAtLeast_loop_eq. reflexivity.
Qed.

(** The handshake always returns: [io.ReadFull] ends on every script, and
    the index expressions of the decoder are in range. *)
Lemma receiveFileNameLen_returns (r : Receiver) (con : Conn) :
  exists out, receiveFileNameLen r con = Some out.
Proof.
  unfold receiveFileNameLen.
  destruct (ReadFull_terminates con 4) as [[[buf [e|]] c'] HR]; rewrite HR;
    [eauto|].
  apply ReadFull_nil_length in HR.
  destruct buf as [|b0 [|b1 [|b2 [|b3 buf]]]]; simpl in HR; try lia.
  simpl. eauto.
Qed.

Lemma receiveFileName_returns (r : Receiver) (con : Conn) :
  exists out, receiveFileName r con = Some out.
Proof.
  unfold receiveFileName.
  destruct (receiveFileNameLen_returns r con) as [[[n|e] c'] ->]; [|eauto].
  destruct (ReadFull_terminates c' (Z.to_nat n)) as [[[buf [e|]] c''] ->];
    eauto.
Qed.

Lemma receiveFileNameLen_decodes (r : Receiver) (c : Conn)
    chunks tail hdr rest n :
  script c = map Data chunks ++ tail ->
  concat chunks = hdr ++ rest ->
  length hdr = 4%nat -> Uint32 hdr = Some n ->
  exists c1 chunks1,
    receiveFileNameLen r c = Some (Ok n, c1)
    /\ script c1 = map Data chunks1 ++ tail
    /\ concat chunks1 = rest.
Proof.
  intros Hs Hcat Hlen Hdec. unfold receiveFileNameLen.
  destruct (ReadFull_exact c chunks tail hdr rest Hs Hcat)
    as (c1 & chunks1 & HR & Hs1 & Hcat1).
  rewrite Hlen in HR. rewrite HR, Hdec. eauto.
Qed.

Lemma PutUint32_length (v : Z) : length (PutUint32 v) = 4%nat.
Proof. reflexivity. Qed.

(** C3. Round trip of the name frame: for every payload of length
    [L <= 2^32 - 1], when the bytes a sender produces by writing [L] as four
    little-endian bytes followed by the payload reach the receiver, cut
    into arbitrary pieces and followed by anything, the length decoder
    yields [L] again, the exact read of [L] bytes yields the payload again,
    and what follows the frame is left on the connection. *)
Theorem name_frame_round_trip (r : Receiver) (c : Conn)
    (payload rest : list byte) (chunks : list (list byte))
    (tail : list event) :
  Z.of_nat (length payload) <= 2 ^ 32 - 1 ->
  script c = map Data chunks ++ tail ->
  concat chunks = encode_frame payload ++ rest ->
  Uint32 (PutUint32 (Z.of_nat (length payload)))
    = Some (Z.of_nat (length payload))
  /\ exists c1 c2 chunks2,
      receiveFileNameLen r c = Some (Ok (Z.of_nat (length payload)), c1)
      /\ receiveFileName r c = Some (Ok (string_of_list_byte payload), c2)
      /\ list_byte_of_string (string_of_list_byte payload) = payload
      /\ script c2 = map Data chunks2 ++ tail
      /\ concat chunks2 = rest.
Proof.
  intros HL Hs Hcat.
  assert (Hdec : forall tl, Uint32 (PutUint32 (Z.of_nat (length payload)) ++ tl)
                            = Some (Z.of_nat (length payload))).
  { intros tl. apply Uint32_PutUint32. lia. }
  split. { rewrite <- (app_nil_r (PutUint32 _)). apply Hdec. }
  unfold encode_frame in Hcat. rewrite <- app_assoc in Hcat.
  destruct (receiveFileNameLen_decodes r c chunks tail _ _
              (Z.of_nat (length payload)) Hs Hcat (PutUint32_length _))
    as (c1 & chunks1 & HN & Hs1 & Hcat1).
  { rewrite <- (app_nil_r (PutUint32 _)). apply Hdec. }
  destruct (ReadFull_exact c1 chunks1 tail payload rest Hs1 Hcat1)
    as (c2 & chunks2 & HR & Hs2 & Hcat2).
  exists c1, c2, chunks2. split; [assumption|].
  split; [|split; [apply list_byte_of_string_of_list_byte|auto]].
  unfold receiveFileName. rewrite HN, Nat2Z.id, HR. reflexivity.
Qed.

Lemma name_frame_round_trip_witness :
  exists c2,
    receiveFileName (NewReceiver 4 4000)
      (dial_script [Data [x03; x00; x00]; Data [x00; x61; x2e]; Data [x62; x7a]])
    = Some (Ok "a.b", c2)
    /\ pending (script c2) = [x7a].
Proof.
  destruct (name_frame_round_trip (NewReceiver 4 4000)
              (dial_script
                 [Data [x03; x00; x00]; Data [x00; x61; x2e]; Data [x62; x7a]])
              [x61; x2e; x62] [x7a]
              [[x03; x00; x00]; [x00; x61; x2e]; [x62; x7a]] [])
    as (_ & c1 & c2 & chunks2 & _ & HN & _ & Hs & Hcat).
  - simpl. lia.
  - reflexivity.
  - reflexivity.
  - exists c2. split; [exact HN|].
    rewrite Hs, app_nil_r. unfold pending. rewrite map_map. simpl.
    rewrite map_id. exact Hcat.
Defined.

(** C2. Truncated handshake.  (1) When the connection closes after fewer
    than 4 bytes, in whatever pieces they came, [receiveFile] returns the
    name-length read error, wrapping [io.EOF] if nothing arrived and
    [io.ErrUnexpectedEOF] otherwise.  (2) When the four length bytes declare
    [n] and the connection closes after fewer than [n] further bytes,
    [receiveFile] returns the name read error.  In both cases the world is
    returned as it was: no file has been created, nothing has been written
    or logged, and the content phase has not been entered. *)
Theorem truncated_handshake_fails (fuel : nat) (r : Receiver) (env : Env)
    (w : World) :
  (forall c chunks,
      script c = map Data chunks ->
      (length (concat chunks) < 4)%nat ->
      exists c',
        receiveFile fuel r env c w
        = Some (Some (Errorf "err receiving file name: "
                       (Errorf "err receiving file name len: "
                         (Errorf "err receiving file name length: "
                           (close_error (concat chunks))))), c', w)
        /\ script c' = [])
  /\ (forall c chunks hdr partial n,
      script c = map Data chunks ->
      concat chunks = hdr ++ partial ->
      length hdr = 4%nat -> Uint32 hdr = Some n ->
      Z.of_nat (length partial) < n ->
      exists c',
        receiveFile fuel r env c w
        = Some (Some (Errorf "err receiving file name: "
                       (Errorf "err receiving file name: "
                         (close_error partial))), c', w)
        /\ script c' = []).
Proof.
  split.
  - intros c chunks Hs Hlen.
    destruct (ReadFull_short c chunks 4 Hs Hlen) as (c' & HR & Hs').
    exists c'. split; [|assumption].
    unfold receiveFile, receiveFileName, receiveFileNameLen. rewrite HR.
    reflexivity.
  - intros c chunks hdr partial n Hs Hcat Hlen Hdec Hshort.
    rewrite <- (app_nil_r (map Data chunks)) in Hs.
    destruct (receiveFileNameLen_decodes r c chunks [] hdr partial n
                Hs Hcat Hlen Hdec) as (c1 & chunks1 & HN & Hs1 & Hcat1).
    rewrite app_nil_r in Hs1.
    destruct (ReadFull_short c1 chunks1 (Z.to_nat n) Hs1) as (c' & HR & Hs').
    { rewrite Hcat1. lia. }
    exists c'. split; [|assumption].
    unfold receiveFile, receiveFileName. rewrite HN, HR, Hcat1.
    reflexivity.
Qed.

Lemma truncated_handshake_fails_witness :
  (exists c',
      receiveFile 8 (NewReceiver 4 4000)
        (mkEnv 1718000000 (fun _ => None) (inl io_EOF) (fun _ => inl io_EOF)
               (fun _ => None) None)
        (dial_script [Data [x0a; x00]; Data [x00]]) (mkWorld ∅ [] [])
      = Some (Some (errors_New
           "err receiving file name: err receiving file name len: err receiving file name length: unexpected EOF"),
              c', mkWorld ∅ [] []))
  /\ (exists c',
      receiveFile 8 (NewReceiver 4 4000)
        (mkEnv 1718000000 (fun _ => None) (inl io_EOF) (fun _ => inl io_EOF)
               (fun _ => None) None)
        (dial_script [Data [x0a; x00]; Data [x00; x00; x61]; Data [x62]])
        (mkWorld ∅ [] [])
      = Some (Some (errors_New
           "err receiving file name: err receiving file name: unexpected EOF"),
              c', mkWorld ∅ [] [])).
Proof.
  pose proof (truncated_handshake_fails 8 (NewReceiver 4 4000)
    (mkEnv 1718000000 (fun _ => None) (inl io_EOF) (fun _ => inl io_EOF)
           (fun _ => None) None) (mkWorld ∅ [] [])) as [H1 H2].
  split.
  - destruct (H1 (dial_script [Data [x0a; x00]; Data [x00]])
                [[x0a; x00]; [x00]]) as (c' & HR & _);
      [reflexivity|simpl; lia|].
    exists c'. exact HR.
  - destruct (H2 (dial_script
                    [Data [x0a; x00]; Data [x00; x00; x61]; Data [x62]])
                [[x0a; x00]; [x00; x00; x61]; [x62]]
                [x0a; x00; x00; x00] [x61; x62] 10) as (c' & HR & _);
      [reflexivity|reflexivity|reflexivity|reflexivity|simpl; lia|].
    exists c'. exact HR.
Defined.

(** ** The content phase *)

Lemma int_add_in_int (a b : Z) : in_int (int_add a b).
Proof.
  unfold in_int, int_add.
  pose proof (Z.mod_pos_bound (a + b + 2 ^ 63) (2 ^ 64)). lia.
Qed.

Lemma int_add_exact (a b : Z) : in_int (a + b) -> int_add a b = a + b.
Proof.
  unfold in_int, int_add. intros H. rewrite Z.mod_small; lia.
Qed.

Lemma int_add_int_add (t a b : Z) :
  int_add (int_add t a) b = int_add t (a + b).
Proof.
  unfold int_add.
  replace ((t + a + 2 ^ 63) mod 2 ^ 64 - 2 ^ 63 + b + 2 ^ 63)
    with ((t + a + 2 ^ 63) mod 2 ^ 64 + b) by lia.
  rewrite Zplus_mod_idemp_l. do 2 f_equal. lia.
Qed.

Lemma alter_present (m : gmap string (list byte)) name pre f :
  m !! name = Some pre -> alter f name m = <[name := f pre]> m.
Proof.
  intros Hpre. apply map_eq. intros k.
  destruct (decide (name = k)) as [<-|Hne].
  - rewrite lookup_alter_eq, lookup_insert_eq, Hpre. reflexivity.
  - rewrite lookup_alter_ne, lookup_insert_ne by assumption. reflexivity.
Qed.

(** A write outside the fault schedule stores the whole chunk. *)
Lemma Write_complete (file : File) (b : list byte) (w : World) pre :
  write_faults w = [] -> fs w !! fname file = Some pre ->
  Write file b w
  = (length b, None,
     mkWorld (<[fname file := pre ++ b]> (fs w)) (logs w) []).
Proof.
  intros Hf Hpre. unfold Write. rewrite Hf, firstn_all.
  rewrite (alter_present _ _ pre) by assumption. reflexivity.
Qed.

Lemma content_loop_S fuel r con file w total :
  content_loop (S fuel) r con file w total =
  let '(chunk, err, con') := Read con (chunkSize r) in
  match err with
  | Some err =>
      if is_EOF err then Some (inl total, con', w)
      else Some (inr (Errorf "err receiving file chunk: " err), con', w)
  | None =>
      let '(_, err, w') := Write file chunk w in
      match err with
      | Some err =>
          Some (inr (Errorf "err writing chunk to the file: " err), con', w')
      | None =>
          content_loop fuel r con' file w'
            (int_add total (Z.of_nat (length chunk)))
      end
  end.
Proof. reflexivity. Qed.

(** The loop over a run of data: however the stream is cut into events
    and however the events compare with the chunk size, after at most
    [weight] iterations every byte of the run has been appended to the
    file, in order, and the loop stands in front of what follows. *)
Lemma content_loop_data (r : Receiver) (file : File) :
  (0 < chunkSize r)%nat ->
  forall n chunks tail c w total pre,
    script c = map Data chunks ++ tail ->
    (weight (map Data chunks) <= n)%nat ->
    write_faults w = [] ->
    fs w !! fname file = Some pre ->
    in_int total ->
    exists k c1,
      (k <= n)%nat /\ script c1 = tail
      /\ forall extra,
          content_loop (k + extra) r c file w total
          = content_loop extra r c1 file
              (mkWorld (<[fname file := pre ++ concat chunks]> (fs w))
                       (logs w) [])
              (int_add total (Z.of_nat (length (concat chunks)))).
Proof.
  intros Hcs.
  assert (Hnil : forall tail c w total pre,
    script c = tail -> write_faults w = [] ->
    fs w !! fname file = Some pre -> in_int total ->
    exists k c1, (k <= 0)%nat /\ script c1 = tail
      /\ forall extra,
          content_loop (k + extra) r c file w total
          = content_loop extra r c1 file
              (mkWorld (<[fname file := pre ++ []]> (fs w)) (logs w) [])
              (int_add total (Z.of_nat 0))).
  { intros tail c w total pre Hs Hf Hpre Hin. exists O, c.
    split; [lia|]. split; [assumption|]. intros extra.
    rewrite app_nil_r, insert_id by assumption.
    rewrite int_add_exact by (unfold in_int in *; lia).
    destruct w as [m l f]. simpl in *. subst f. f_equal. lia. }
  induction n as [|n IH]; intros chunks tail c w total pre Hs Hw Hf Hpre Hin.
  { destruct chunks; [|simpl in Hw; lia].
    destruct (Hnil tail c w total pre Hs Hf Hpre Hin) as (k & c1 & ? & ? & ?).
    exists k, c1. auto. }
  destruct chunks as [|ch chunks].
  { destruct (Hnil tail c w total pre Hs Hf Hpre Hin) as (k & c1 & ? & ? & ?).
    exists k, c1. split; [lia|]. auto. }
  cbn [map app] in Hs. cbn [map weight event_bytes] in Hw.
  destruct (Nat.le_gt_cases (length ch) (chunkSize r)) as [Hfit|Hbig].
  - destruct (Read_Data_whole c (chunkSize r) ch _ Hs Hcs Hfit)
      as (c1 & HR & Hs1 & _).
    destruct (IH chunks tail c1
                (mkWorld (<[fname file := pre ++ ch]> (fs w)) (logs w) [])
                (int_add total (Z.of_nat (length ch))) (pre ++ ch) Hs1)
      as (k & c2 & Hk & Hs2 & Hrun);
      [lia|reflexivity|apply lookup_insert_eq|apply int_add_in_int|].
    exists (S k), c2. split; [lia|]. split; [assumption|]. intros extra.
    cbn [Nat.add]. rewrite content_loop_S, HR.
    rewrite (Write_complete file ch w pre Hf Hpre). cbv iota beta.
    rewrite Hrun. cbn [fs logs concat].
    rewrite insert_insert_eq, <- app_assoc, int_add_int_add, length_app.
    do 2 f_equal. lia.
  - destruct (Read_Data_part c (chunkSize r) ch _ Hs Hcs Hbig)
      as (c1 & HR & Hs1).
    destruct (IH (drop (chunkSize r) ch :: chunks) tail c1
                (mkWorld (<[fname file := pre ++ take (chunkSize r) ch]> (fs w))
                         (logs w) [])
                (int_add total (Z.of_nat (length (take (chunkSize r) ch))))
                (pre ++ take (chunkSize r) ch) Hs1)
      as (k & c2 & Hk & Hs2 & Hrun);
      [cbn [map weight event_bytes]; rewrite length_drop; lia
      |reflexivity|apply lookup_insert_eq|apply int_add_in_int|].
    exists (S k), c2. split; [lia|]. split; [assumption|]. intros extra.
    cbn [Nat.add]. rewrite content_loop_S, HR.
    rewrite (Write_complete file _ w pre Hf Hpre). cbv iota beta.
    rewrite Hrun. cbn [fs logs concat].
    rewrite insert_insert_eq, <- app_assoc, int_add_int_add.
    rewrite (app_assoc (take _ ch)), take_drop.
    rewrite <- Nat2Z.inj_add, <- length_app, (app_assoc (take _ ch)), take_drop.
    reflexivity.
Qed.

(** A run of data followed by a read that returns its bytes together with
    an error: the run is in the file, the bytes that came with the error
    are not, and the error decides how the loop is left. *)
Lemma content_loop_data_then_fail (fuel : nat) (r : Receiver) (file : File)
    c w chunks bs e rest pre :
  (0 < chunkSize r)%nat ->
  script c = map Data chunks ++ Fail bs e :: rest ->
  (length bs <= chunkSize r)%nat ->
  write_faults w = [] ->
  fs w !! fname file = Some pre ->
  (weight (map Data chunks) < fuel)%nat ->
  exists c',
    script c' = rest
    /\ content_loop fuel r c file w 0
       = Some (if is_EOF e
               then inl (int_add 0 (Z.of_nat (length (concat chunks))))
               else inr (Errorf "err receiving file chunk: " e),
               c',
               mkWorld (<[fname file := pre ++ concat chunks]> (fs w))
                       (logs w) []).
Proof.
  intros Hcs Hs Hbs Hf Hpre Hfuel.
  destruct (content_loop_data r file Hcs (weight (map Data chunks)) chunks
              (Fail bs e :: rest) c w 0 pre Hs)
    as (k & c1 & Hk & Hs1 & Hrun);
    [lia|assumption|assumption|unfold in_int; lia|].
  destruct (Read_Fail_whole c1 (chunkSize r) bs e rest Hs1 Hcs Hbs)
    as (c' & HR & Hs' & _).
  exists c'. split; [assumption|].
  replace fuel with (k + S (fuel - k - 1))%nat by lia.
  rewrite Hrun, content_loop_S, HR. destruct (is_EOF e); reflexivity.
Qed.

(** Streaming fidelity on the reads that return a nil error: a stream cut
    into arbitrary events and then closed is copied to the file byte for
    byte, for every positive chunk size, and the count that is logged is
    its length. *)
Lemma content_stream_copied (fuel : nat) (r : Receiver) (file : File)
    c w chunks pre :
  (0 < chunkSize r)%nat ->
  script c = map Data chunks ->
  write_faults w = [] ->
  fs w !! fname file = Some pre ->
  Z.of_nat (length (concat chunks)) < 2 ^ 63 ->
  (weight (script c) < fuel)%nat ->
  exists c',
    receiveAndSaveFileContent fuel r c file w
    = Some (None, c',
            mkWorld (<[fname file := pre ++ concat chunks]> (fs w))
                    (logs w ++ ["received "
                                +:+ itoa (Z.of_nat (length (concat chunks)))
                                +:+ " bytes from the sender"]) []).
Proof.
  intros Hcs Hs Hf Hpre Hsmall Hfuel. rewrite Hs in Hfuel.
  rewrite <- (app_nil_r (map Data chunks)) in Hs.
  destruct (content_loop_data r file Hcs (weight (map Data chunks)) chunks
              [] c w 0 pre Hs)
    as (k & c1 & Hk & Hs1 & Hrun);
    [lia|assumption|assumption|unfold in_int; lia|].
  destruct (Read_closed c1 (chunkSize r) Hs1 Hcs) as (c' & HR & _).
  exists c'. unfold receiveAndSaveFileContent.
  replace fuel with (k + S (fuel - k - 1))%nat by lia.
  rewrite Hrun, content_loop_S, HR. cbn [is_EOF].
  rewrite int_add_exact by (unfold in_int; lia). reflexivity.
Qed.

(** With a chunk size of zero every read returns [(0, nil)] and the loop
    never ends. *)
Lemma content_loop_zero_chunk (fuel : nat) (r : Receiver) c file w total :
  chunkSize r = 0%nat -> write_faults w = [] ->
  content_loop fuel r c file w total = None.
Proof.
  intros Hz. revert c w total.
  induction fuel as [|fuel IH]; intros c w total Hf; [reflexivity|].
  rewrite content_loop_S. unfold Read. rewrite Hz. cbv iota beta.
  unfold Write. rewrite Hf. cbv iota beta. apply IH. reflexivity.
Qed.

(** What the file holds is only ever extended by the loop. *)
Lemma Write_appends (file : File) (b : list byte) (w : World) pre n err w' :
  fs w !! fname file = Some pre ->
  Write file b w = (n, err, w') ->
  fs w' !! fname file = Some (pre ++ take n b) /\ logs w' = logs w.
Proof.
  intros Hpre. unfold Write.
  destruct (write_faults w) as [|[[k e]|] faults]; intros [= <- <- <-];
    cbn [fs logs]; rewrite lookup_alter_eq, Hpre; auto.
Qed.

Lemma content_loop_extends (fuel : nat) (r : Receiver) (file : File) :
  forall c w total pre res c' w',
    fs w !! fname file = Some pre ->
    content_loop fuel r c file w total = Some (res, c', w') ->
    exists suffix, fs w' !! fname file = Some (pre ++ suffix).
Proof.
  induction fuel as [|fuel IH]; intros c w total pre res c' w' Hpre;
    [discriminate|].
  rewrite content_loop_S.
  destruct (Read c (chunkSize r)) as [[chunk [e|]] c1].
  - destruct (is_EOF e); intros [= <- <- <-]; exists [];
      rewrite app_nil_r; assumption.
  - destruct (Write file chunk w) as [[n err] w1] eqn:HW.
    destruct (Write_appends file chunk w pre n err w1 Hpre HW) as [Hw1 _].
    destruct err as [e|].
    + intros [= <- <- <-]. eauto.
    + intros Hrun. destruct (IH _ _ _ _ _ _ _ Hw1 Hrun) as [suffix Hs].
      exists (take n chunk ++ suffix). rewrite app_assoc. assumption.
Qed.

(** The reads of one run of the loop, as recorded in the trace: all but
    the last returned a nil error, and the last one decides the outcome. *)
Lemma content_loop_trace (fuel : nat) (r : Receiver) (file : File) :
  forall c w total res c' w',
    content_loop fuel r c file w total = Some (res, c', w') ->
    exists tr n err,
      trace c' = trace c ++ tr ++ [(n, err)]
      /\ Forall (fun rd => rd.2 = None) tr
      /\ match res with
         | inl _ => err = Some io_EOF
         | inr e =>
             (exists e0, err = Some e0 /\ e0 <> io_EOF
                         /\ e = Errorf "err receiving file chunk: " e0)
             \/ (err = None
                 /\ exists e0, e = Errorf "err writing chunk to the file: " e0)
         end.
Proof.
  induction fuel as [|fuel IH]; intros c w total res c' w'; [discriminate|].
  rewrite content_loop_S.
  destruct (Read c (chunkSize r)) as [[chunk err] c1] eqn:HR.
  apply Read_trace in HR. destruct err as [e|].
  - destruct e; cbn [is_EOF]; intros [= <- <- <-];
      exists [], (length chunk); eexists; (split; [exact HR|]);
      (split; [constructor|]); try reflexivity;
      left; eexists; (split; [reflexivity|]); split; congruence.
  - destruct (Write file chunk w) as [[n [e|]] w1].
    + intros [= <- <- <-]. exists [], (length chunk), None.
      split; [exact HR|]. split; [constructor|]. right. eauto.
    + intros Hrun. destruct (IH _ _ _ _ _ _ Hrun) as (tr & m & err & Ht & Hnil & Hres).
      exists ((length chunk, None) :: tr), m, err.
      split; [rewrite Ht, HR, <- app_assoc; reflexivity|].
      split; [constructor; [reflexivity|assumption]|assumption].
Qed.

(** How [receiveFile] and [Handle] pass on the outcome of the phases. *)
Lemma receiveFile_content (fuel : nat) (r : Receiver) (env : Env)
    con w filePath con1 file w1 res con2 w2 :
  receiveFileName r con = Some (Ok filePath, con1) ->
  os_Create env (prepareDestFilePath r env filePath) w = (Ok file, w1) ->
  receiveAndSaveFileContent fuel r con1 file w1 = Some (res, con2, w2) ->
  receiveFile fuel r env con w
  = Some (option_map (Errorf "err receiving and saving file content: ") res,
          con2, w2).
Proof.
  intros HN HC HS. unfold receiveFile. rewrite HN, HC, HS.
  destruct res; reflexivity.
Qed.

Lemma Handle_receiveFile_error (fuel : nat) (r : Receiver) (env : Env)
    w peer con err con' w' :
  discover r env = Some (Ok peer) ->
  dial env peer = inr con ->
  receiveFile fuel r env con (log_Printf ("connected to peer: " +:+ peer) w)
  = Some (Some err, con', w') ->
  Handle fuel r env w = Some (Some (Errorf "err receiving file: " err), w').
Proof.
  intros HD Hdial HR. unfold Handle. rewrite HD. cbn [Handle_range].
  rewrite Hdial, HR. reflexivity.
Qed.

(** C6. In the content phase the end of the stream is the one way to
    finish without an error.  (1) In any iteration, a read that returns
    [io.EOF] leaves the loop by its [break], and (2) a read that returns any
    other error leaves the function with that error, wrapped.  (3) After
    the [break] the function returns nil.  (4) Whenever
    [receiveAndSaveFileContent] returns, every read but the last returned a
    nil error and the result is nil exactly when the last read returned
    [io.EOF]; the session ([receiveFile]) then returns nil exactly when
    the content phase did. *)
Theorem eof_is_the_sole_clean_end (r : Receiver) (file : File) :
  (forall fuel con w total bs con',
      Read con (chunkSize r) = (bs, Some io_EOF, con') ->
      content_loop (S fuel) r con file w total = Some (inl total, con', w))
  /\ (forall fuel con w total bs e con',
      Read con (chunkSize r) = (bs, Some e, con') -> e <> io_EOF ->
      content_loop (S fuel) r con file w total
      = Some (inr (Errorf "err receiving file chunk: " e), con', w))
  /\ (forall fuel con w total con' w',
      content_loop fuel r con file w 0 = Some (inl total, con', w') ->
      receiveAndSaveFileContent fuel r con file w
      = Some (None, con',
              log_Printf ("received " +:+ itoa total
                          +:+ " bytes from the sender") w'))
  /\ (forall fuel con w res con' w',
      receiveAndSaveFileContent fuel r con file w = Some (res, con', w') ->
      (exists tr n err,
          trace con' = trace con ++ tr ++ [(n, err)]
          /\ Forall (fun rd => rd.2 = None) tr
          /\ (res = None <-> err = Some io_EOF)
          /\ (forall e, err = Some e -> e <> io_EOF ->
                        res = Some (Errorf "err receiving file chunk: " e)))
      /\ (forall env con0 w0 filePath,
          receiveFileName r con0 = Some (Ok filePath, con) ->
          os_Create env (prepareDestFilePath r env filePath) w0 = (Ok file, w) ->
          exists res0,
            receiveFile fuel r env con0 w0 = Some (res0, con', w')
            /\ (res0 = None <-> res = None))).
Proof.
  split; [|split; [|split]].
  - intros fuel con w total bs con' HR. rewrite content_loop_S, HR.
    reflexivity.
  - intros fuel con w total bs e con' HR He. rewrite content_loop_S, HR.
    destruct e; [congruence|reflexivity..].
  - intros fuel con w total con' w' HL. unfold receiveAndSaveFileContent.
    rewrite HL. reflexivity.
  - intros fuel con w res con' w' Hrun. split.
    + unfold receiveAndSaveFileContent in Hrun.
      destruct (content_loop fuel r con file w 0) as [[[out c1] w1]|] eqn:HL;
        [|discriminate].
      destruct (content_loop_trace _ _ _ _ _ _ _ _ _ HL)
        as (tr & n & err & Ht & Hnil & Hres).
      destruct out as [total|e]; injection Hrun as <- <- <-;
        exists tr, n, err; (split; [exact Ht|]); (split; [exact Hnil|]).
      * subst err. split; [tauto|]. intros e [= <-] He. congruence.
      * destruct Hres as [(e0 & -> & Hne & ->)|(-> & e0 & ->)].
        -- split; [split; [discriminate|congruence]|].
           intros e1 [= <-] _. reflexivity.
        -- split; [split; discriminate|discriminate].
    + intros env con0 w0 filePath HN HC.
      rewrite (receiveFile_content _ _ _ _ _ _ _ _ _ _ _ _ HN HC Hrun).
      eexists. split; [reflexivity|]. destruct res; simpl; split; congruence.
Qed.

Lemma eof_is_the_sole_clean_end_witness :
  receiveAndSaveFileContent 3 (NewReceiver 4 4000)
    (dial_script [Data [x68; x69]]) (mkFile "out")
    (mkWorld {["out" := []]} [] [])
  = Some (None,
          mkConn [] [(2%nat, None); (0%nat, Some io_EOF)],
          mkWorld (<["out" := [x68; x69]]> {["out" := []]})
                  ["received 2 bytes from the sender"] [])
  /\ exists tr n,
      [(2%nat, None); (0%nat, Some io_EOF)]
      = [] ++ tr ++ [(n, Some io_EOF)]
      /\ Forall (fun rd : nat * option error => rd.2 = None) tr.
Proof.
  assert (Hrun :
    receiveAndSaveFileContent 3 (NewReceiver 4 4000)
      (dial_script [Data [x68; x69]]) (mkFile "out")
      (mkWorld {["out" := []]} [] [])
    = Some (None,
            mkConn [] [(2%nat, None); (0%nat, Some io_EOF)],
            mkWorld (<["out" := [x68; x69]]> {["out" := []]})
                    ["received 2 bytes from the sender"] [])).
  { unfold receiveAndSaveFileContent. rewrite !content_loop_S.
    cbn [Read dial_script script trace chunkSize length Nat.leb app].
    cbv iota beta.
    rewrite (Write_complete (mkFile "out") [x68; x69]
               (mkWorld {["out" := []]} [] []) [] eq_refl
               (lookup_singleton_eq _ _)).
    reflexivity. }
  split; [exact Hrun|].
  destruct (eof_is_the_sole_clean_end (NewReceiver 4 4000) (mkFile "out"))
    as (_ & _ & _ & H4).
  destruct (H4 _ _ _ _ _ _ Hrun) as [(tr & n & err & Ht & Hnil & Hiff & _) _].
  exists tr, n. cbn [trace dial_script] in Ht.
  rewrite (proj1 Hiff eq_refl) in Ht. split; [exact Ht|exact Hnil].
Defined.




(** C7. No rollback of partial output.  (1) From any state of the content
    loop in which the destination file holds [pre], a run that ends in an
    error ends in a content read error or a content write error and leaves
    a file that still starts with [pre].  (2) A read error after a run of
    data leaves exactly that data in the file, and (3) a failing write
    leaves what was there before followed by the bytes it did store.
    (4) [receiveFile] wraps the error and returns the world as the loop
    left it, and (5) so does [Handle]: neither removes or truncates the
    file. *)
Theorem partial_output_remains (fuel : nat) (r : Receiver) (file : File) :
  (forall con w total pre err con' w',
      fs w !! fname file = Some pre ->
      content_loop fuel r con file w total = Some (inr err, con', w') ->
      (exists suffix, fs w' !! fname file = Some (pre ++ suffix))
      /\ ((exists e, e <> io_EOF
                     /\ err = Errorf "err receiving file chunk: " e)
          \/ exists e, err = Errorf "err writing chunk to the file: " e))
  /\ (forall con w chunks e rest pre,
      (0 < chunkSize r)%nat ->
      script con = map Data chunks ++ Fail [] e :: rest ->
      e <> io_EOF ->
      write_faults w = [] ->
      fs w !! fname file = Some pre ->
      (weight (map Data chunks) < fuel)%nat ->
      exists con',
        content_loop fuel r con file w 0
        = Some (inr (Errorf "err receiving file chunk: " e), con',
                mkWorld (<[fname file := pre ++ concat chunks]> (fs w))
                        (logs w) []))
  /\ (forall con w total pre chunk con' n e w',
      fs w !! fname file = Some pre ->
      Read con (chunkSize r) = (chunk, None, con') ->
      Write file chunk w = (n, Some e, w') ->
      content_loop (S fuel) r con file w total
      = Some (inr (Errorf "err writing chunk to the file: " e), con', w')
      /\ fs w' !! fname file = Some (pre ++ take n chunk))
  /\ (forall env con0 w0 filePath con w err con' w',
      receiveFileName r con0 = Some (Ok filePath, con) ->
      os_Create env (prepareDestFilePath r env filePath) w0 = (Ok file, w) ->
      content_loop fuel r con file w 0 = Some (inr err, con', w') ->
      receiveFile fuel r env con0 w0
      = Some (Some (Errorf "err receiving and saving file content: " err),
              con', w'))
  /\ (forall env w peer con err con' w',
      discover r env = Some (Ok peer) ->
      dial env peer = inr con ->
      receiveFile fuel r env con
        (log_Printf ("connected to peer: " +:+ peer) w)
      = Some (Some err, con', w') ->
      Handle fuel r env w
      = Some (Some (Errorf "err receiving file: " err), w')).
Proof.
  split; [|split; [|split; [|split]]].
  - intros con w total pre err con' w' Hpre HL. split.
    + eapply content_loop_extends; eassumption.
    + destruct (content_loop_trace _ _ _ _ _ _ _ _ _ HL)
        as (_ & _ & _ & _ & _ & [(e0 & _ & Hne & ->)|(_ & e0 & ->)]); eauto.
  - intros con w chunks e rest pre Hcs Hs He Hf Hpre Hfuel.
    destruct (content_loop_data_then_fail fuel r file con w chunks [] e rest
                pre Hcs Hs) as (con' & _ & HL);
      [simpl; lia|assumption..|].
    exists con'. rewrite HL. destruct e; [congruence|reflexivity..].
  - intros con w total pre chunk con' n e w' Hpre HR HW. split.
    + rewrite content_loop_S, HR, HW. reflexivity.
    + eapply Write_appends; eassumption.
  - intros env con0 w0 filePath con w err con' w' HN HC HL.
    rewrite (receiveFile_content fuel r env con0 w0 filePath con file w
               (Some err) con' w' HN HC); [reflexivity|].
    unfold receiveAndSaveFileContent. rewrite HL. reflexivity.
  - intros env w peer con err con' w'. apply Handle_receiveFile_error.
Qed.

Lemma partial_output_remains_witness :
  exists w',
    Handle 8 (NewReceiver 4 4000) reset_env (mkWorld ∅ [] [])
    = Some (Some (errors_New
        "err receiving file: err receiving and saving file content: err receiving file chunk: connection reset by peer"),
            w')
    /\ fs w' !! "1718000000.b" = Some (list_byte_of_string "xyz").
Proof.
  destruct (partial_output_remains 8 (NewReceiver 4 4000)
              (mkFile "1718000000.b")) as (_ & H2 & _ & H4 & H5).
  destruct (H2 (mkConn [Data (list_byte_of_string "xyz");
                        Fail [] (errors_New "connection reset by peer")]
                       [(4%nat, None); (3%nat, None)])
               (mkWorld (<["1718000000.b" := []]> ∅)
                        ["connected to peer: localhost:9000"] [])
               [list_byte_of_string "xyz"]
               (errors_New "connection reset by peer") [] [])
    as (con' & HL);
    [cbn [chunkSize]; lia|reflexivity|discriminate|reflexivity
    |apply lookup_insert_eq|simpl; lia|].
  pose proof (H4 reset_env
                (dial_script
                   [Data (encode_frame (list_byte_of_string "a.b")
                          ++ list_byte_of_string "xyz");
                    Fail [] (errors_New "connection reset by peer")])
                (mkWorld ∅ ["connected to peer: localhost:9000"] [])
                "a.b" _ _ _ _ _ eq_refl eq_refl HL) as HF.
  pose proof (H5 reset_env (mkWorld ∅ [] []) "localhost:9000" _ _ _ _
                eq_refl eq_refl HF) as HH.
  eexists. split; [exact HH|].
  cbn [fs]. rewrite lookup_insert_eq. reflexivity.
Defined.

(** ** The session *)

Lemma append_empty_r (s : string) : s +:+ "" = s.
Proof.
  induction s as [|c s IH]; [reflexivity|].
  change (String c (s +:+ "") = String c s). f_equal. exact IH.
Qed.

(** C10. A name frame that declares the length 0 is accepted: the name
    read succeeds without a further read and yields the empty name, whose
    extension is empty, so the destination is named by the bare timestamp;
    once [os.Create] has succeeded the session is in the content phase on
    the rest of the connection, and a stream that is then delivered and
    closed in order ends the session without an error. *)
Theorem empty_name_is_accepted (fuel : nat) (r : Receiver) (env : Env)
    (con con1 : Conn) (w : World) :
  receiveFileNameLen r con = Some (Ok 0, con1) ->
  receiveFileName r con = Some (Ok "", con1)
  /\ Ext "" = ""
  /\ prepareDestFilePath r env "" = itoa (unix_now env)
  /\ (create_fault env (itoa (unix_now env)) = None ->
      receiveFile fuel r env con w
      = match receiveAndSaveFileContent fuel r con1
                (mkFile (itoa (unix_now env)))
                (mkWorld (<[itoa (unix_now env) := []]> (fs w))
                         (logs w) (write_faults w)) with
        | None => None
        | Some (res, con2, w2) =>
            Some (option_map
                    (Errorf "err receiving and saving file content: ") res,
                  con2, w2)
        end)
  /\ (forall chunks,
      create_fault env (itoa (unix_now env)) = None ->
      (0 < chunkSize r)%nat ->
      script con1 = map Data chunks ->
      write_faults w = [] ->
      Z.of_nat (length (concat chunks)) < 2 ^ 63 ->
      (weight (script con1) < fuel)%nat ->
      exists con2,
        receiveFile fuel r env con w
        = Some (None, con2,
                mkWorld (<[itoa (unix_now env) := concat chunks]> (fs w))
                        (logs w ++
                         ["received "
                          +:+ itoa (Z.of_nat (length (concat chunks)))
                          +:+ " bytes from the sender"]) [])).
Proof.
  intros HN.
  assert (Hname : receiveFileName r con = Some (Ok "", con1)).
  { unfold receiveFileName. rewrite HN. change (Z.to_nat 0) with 0%nat.
    rewrite ReadFull_zero. reflexivity. }
  assert (Hdest : prepareDestFilePath r env "" = itoa (unix_now env)).
  { unfold prepareDestFilePath. apply append_empty_r. }
  split; [assumption|]. split; [reflexivity|]. split; [assumption|].
  assert (Hcreate : create_fault env (itoa (unix_now env)) = None ->
    os_Create env (prepareDestFilePath r env "") w
    = (Ok (mkFile (itoa (unix_now env))),
       mkWorld (<[itoa (unix_now env) := []]> (fs w))
               (logs w) (write_faults w))).
  { intros Hc. rewrite Hdest. unfold os_Create. rewrite Hc. reflexivity. }
  split.
  - intros Hc. unfold receiveFile. rewrite Hname, (Hcreate Hc).
    destruct (receiveAndSaveFileContent _ _ _ _ _) as [[[[e|] c2] w2]|];
      reflexivity.
  - intros chunks Hc Hcs Hs Hf Hsmall Hfuel.
    destruct (content_stream_copied fuel r (mkFile (itoa (unix_now env)))
                con1
                (mkWorld (<[itoa (unix_now env) := []]> (fs w))
                         (logs w) (write_faults w))
                chunks [] Hcs Hs Hf (lookup_insert_eq _ _ _) Hsmall Hfuel)
      as (con2 & HS).
    exists con2.
    rewrite (receiveFile_content fuel r env con w "" con1 _ _ None con2 _
               Hname (Hcreate Hc) HS).
    cbn [option_map fs logs fname app]. rewrite insert_insert_eq.
    reflexivity.
Qed.

Lemma empty_name_is_accepted_witness :
  receiveFileName (NewReceiver 4 4000)
    (dial_script [Data [x00; x00; x00; x00; x68; x69]])
  = Some (Ok "", mkConn [Data [x68; x69]] [(4%nat, None)])
  /\ exists con2,
      receiveFile 8 (NewReceiver 4 4000) reset_env
        (dial_script [Data [x00; x00; x00; x00; x68; x69]])
        (mkWorld ∅ [] [])
      = Some (None, con2,
              mkWorld (<["1718000000" := [x68; x69]]> ∅)
                      ["received 2 bytes from the sender"] []).
Proof.
  destruct (empty_name_is_accepted 8 (NewReceiver 4 4000) reset_env
              (dial_script [Data [x00; x00; x00; x00; x68; x69]])
              (mkConn [Data [x68; x69]] [(4%nat, None)])
              (mkWorld ∅ [] []) eq_refl)
    as (Hname & _ & _ & _ & Hclean).
  split; [exact Hname|].
  destruct (Hclean [[x68; x69]]) as (con2 & HR);
    [reflexivity|cbn [chunkSize]; lia|reflexivity|reflexivity
    |simpl; lia|simpl; lia|].
  exists con2. exact HR.
Defined.

(** C8. An unreachable peer is logged and skipped: when the dial of the
    one discovered peer fails, [Handle] returns nil, and the only trace of
    the run is the log line; no connection exists, so nothing is read, and
    the file system is as before. *)
Theorem unreachable_peer_is_skipped (fuel : nat) (r : Receiver) (env : Env)
    (w : World) (peer : string) (err : error) :
  discover r env = Some (Ok peer) ->
  dial env peer = inl err ->
  Handle fuel r env w
  = Some (None,
          mkWorld (fs w)
                  (logs w ++ ["err connecting to peer: " +:+ Error err])
                  (write_faults w)).
Proof.
  intros HD Hdial. unfold Handle. rewrite HD. cbn [Handle_range].
  rewrite Hdial. reflexivity.
Qed.

Lemma unreachable_peer_is_skipped_witness :
  Handle 8 (NewReceiver 4 4000)
    (mkEnv 1718000000 (fun _ => None)
       (inr (list_byte_of_string "HELLO 9000"))
       (fun _ => inl (errors_New "connection refused"))
       (fun _ => None) None)
    (mkWorld ∅ [] [])
  = Some (None,
          mkWorld ∅ ["err connecting to peer: connection refused"] []).
Proof.
  exact (unreachable_peer_is_skipped 8 (NewReceiver 4 4000)
           (mkEnv 1718000000 (fun _ => None)
              (inr (list_byte_of_string "HELLO 9000"))
              (fun _ => inl (errors_New "connection refused"))
              (fun _ => None) None)
           (mkWorld ∅ [] []) "localhost:9000"
           (errors_New "connection refused") eq_refl eq_refl).
Defined.

(** ** Discovery *)

Lemma Split_nonempty (s : string) (sep : ascii) : Split s sep <> [].
Proof.
  destruct s as [|c s]; simpl; [discriminate|].
  destruct (Ascii.eqb c sep); [discriminate|].
  destruct (Split s sep); discriminate.
Qed.

Lemma Split_app_sep (pre s : string) (sep : ascii) :
  Split (pre +:+ String sep s) sep = Split pre sep ++ Split s sep.
Proof.
  induction pre as [|c pre IH].
  - change (Split (String sep s) sep = [EmptyString] ++ Split s sep).
    simpl. rewrite Ascii.eqb_refl. reflexivity.
  - change (Split (String c (pre +:+ String sep s)) sep
            = Split (String c pre) sep ++ Split s sep).
    simpl. rewrite IH. destruct (Ascii.eqb c sep); [reflexivity|].
    pose proof (Split_nonempty pre sep).
    destruct (Split pre sep); [congruence|reflexivity].
Qed.

Lemma Split_without_sep (s : string) (sep : ascii) :
  contains sep s = false -> Split s sep = [s].
Proof.
  induction s as [|c s IH]; simpl; [reflexivity|].
  intros H. apply orb_false_iff in H as [Hc Hs].
  rewrite Hc, (IH Hs). reflexivity.
Qed.

(** Every text is free of [sep] or ends in a [sep] followed by a
    [sep]-free rest. *)
Lemma cut_at_last (sep : ascii) (msg : string) :
  contains sep msg = false
  \/ exists pre rest, msg = pre +:+ String sep rest
                      /\ contains sep rest = false.
Proof.
  induction msg as [|c msg IH]; [left; reflexivity|].
  destruct IH as [Hfree|(pre & rest & -> & Hrest)].
  - simpl. destruct (Ascii.eqb_spec c sep) as [->|Hne].
    + right. exists EmptyString, msg. auto.
    + left. assumption.
  - right. exists (String c pre), rest. auto.
Qed.

Lemma last_Split (msg : string) :
  exists port,
    last (Split msg " ") = Some port
    /\ contains " " port = false
    /\ (msg = port \/ exists pre, msg = pre +:+ String " " port).
Proof.
  destruct (cut_at_last " " msg) as [Hfree|(pre & rest & -> & Hrest)].
  - exists msg. rewrite Split_without_sep by assumption. auto.
  - exists rest. rewrite Split_app_sep, (Split_without_sep rest) by assumption.
    rewrite last_snoc. eauto.
Qed.

(** What [buffer[:byteSize]] holds after [ReadFromUDP]: the datagram, cut
    to the length of the buffer. *)
Lemma ReadFromUDP_slice (env : Env) (buffer d : list byte) :
  datagram env = inr d ->
  exists byteSize buffer',
    ReadFromUDP env buffer = inr (byteSize, buffer')
    /\ take byteSize buffer' = take (length buffer) d.
Proof.
  intros Hd. unfold ReadFromUDP. rewrite Hd.
  eexists _, _. split; [reflexivity|].
  rewrite take_app_le by (rewrite length_take; lia).
  rewrite take_idemp.
  destruct (Nat.le_gt_cases (length d) (length buffer)).
  - rewrite Nat.min_l, !take_ge by lia. reflexivity.
  - rewrite Nat.min_r by lia. reflexivity.
Qed.

Lemma discover_datagram (r : Receiver) (env : Env) (d : list byte) :
  listen_fault env (udpDiscoveryPort r) = None ->
  datagram env = inr d ->
  exists port,
    discover r env = Some (Ok ("localhost:" +:+ port))
    /\ last (Split (string_of_list_byte (take 1024 d)) " ") = Some port.
Proof.
  intros Hl Hd. unfold discover. rewrite Hl.
  destruct (ReadFromUDP_slice env (replicate 1024 x00) d Hd)
    as (n & buf & -> & Hslice).
  rewrite Hslice, length_replicate.
  destruct (last_Split (string_of_list_byte (take 1024 d)))
    as (port & -> & _). eauto.
Qed.

(** Only the first 1024 bytes of a datagram reach the parser. *)
Lemma discover_prefix (r : Receiver) (env : Env) (d : list byte) :
  discover r (with_datagram env d)
  = discover r (with_datagram env (take 1024 d)).
Proof.
  unfold discover. cbn [listen_fault with_datagram].
  destruct (listen_fault env (udpDiscoveryPort r)); [reflexivity|].
  destruct (ReadFromUDP_slice (with_datagram env d) (replicate 1024 x00) d
              eq_refl) as (n & buf & -> & ->).
  destruct (ReadFromUDP_slice (with_datagram env (take 1024 d))
              (replicate 1024 x00) (take 1024 d) eq_refl)
    as (n' & buf' & -> & ->).
  rewrite length_replicate, take_idemp. reflexivity.
Qed.

(** C4 as the code has it.  The datagram, cut to 1024 bytes, is taken as
    text byte for byte and split at every space character (0x20), and at
    nothing else; the last piece, which is the text after the last space
    or the whole text if there is no space, is the port of the address
    "localhost:<port>".  "HELLO 51234" and "51234" both give
    "localhost:51234". *)
Theorem discovery_takes_text_after_last_space (r : Receiver) (env : Env) :
  listen_fault env (udpDiscoveryPort r) = None ->
  (forall d,
      datagram env = inr d ->
      exists port,
        discover r env = Some (Ok ("localhost:" +:+ port))
        /\ last (Split (string_of_list_byte (take 1024 d)) " ") = Some port
        /\ contains " " port = false
        /\ (string_of_list_byte (take 1024 d) = port
            \/ exists pre,
                string_of_list_byte (take 1024 d)
                = pre +:+ String " " port))
  /\ (datagram env = inr (list_byte_of_string "HELLO 51234") ->
      discover r env = Some (Ok "localhost:51234"))
  /\ (datagram env = inr (list_byte_of_string "51234") ->
      discover r env = Some (Ok "localhost:51234")).
Proof.
  intros Hl. split; [|split].
  - intros d Hd.
    destruct (discover_datagram r env d Hl Hd) as (port & HD & Hlast).
    destruct (last_Split (string_of_list_byte (take 1024 d)))
      as (port' & Hlast' & Hfree & Hcut).
    assert (port' = port) as -> by congruence.
    exists port. auto.
  - intros Hd. destruct (discover_datagram r env _ Hl Hd) as (port & -> & Hlast).
    vm_compute in Hlast. injection Hlast as <-. reflexivity.
  - intros Hd. destruct (discover_datagram r env _ Hl Hd) as (port & -> & Hlast).
    vm_compute in Hlast. injection Hlast as <-. reflexivity.
Qed.

Lemma discovery_takes_text_after_last_space_witness :
  discover (NewReceiver 4 4000) reset_env = Some (Ok "localhost:9000").
Proof.
  destruct (discovery_takes_text_after_last_space (NewReceiver 4 4000)
              reset_env eq_refl) as (H & _ & _).
  destruct (H (list_byte_of_string "HELLO 9000") eq_refl)
    as (port & -> & Hlast & _).
  vm_compute in Hlast. injection Hlast as <-. reflexivity.
Defined.

(** C4 as it is stated does not hold: a tab is whitespace, but the code
    does not split there, so the datagram "HELLO<TAB>51234" yields the
    address "localhost:HELLO<TAB>51234" and not "localhost:51234". *)
Lemma discovery_does_not_split_on_tab :
  discover (NewReceiver 4 4000)
    (with_datagram reset_env
       (list_byte_of_string ("HELLO" +:+ String "009" "51234")))
  = Some (Ok ("localhost:HELLO" +:+ String "009" "51234"))
  /\ spec_whitespace_address ("HELLO" +:+ String "009" "51234")
     = Some "localhost:51234"
  /\ discover (NewReceiver 4 4000)
       (with_datagram reset_env
          (list_byte_of_string ("HELLO" +:+ String "009" "51234")))
     <> option_map Ok
          (spec_whitespace_address ("HELLO" +:+ String "009" "51234")).
Proof.
  assert (H : discover (NewReceiver 4 4000)
      (with_datagram reset_env
         (list_byte_of_string ("HELLO" +:+ String "009" "51234")))
    = Some (Ok ("localhost:HELLO" +:+ String "009" "51234")))
    by (vm_compute; reflexivity).
  split; [exact H|]. split; [vm_compute; reflexivity|].
  rewrite H. vm_compute. discriminate.
Qed.

(** C9. Of a datagram longer than 1024 bytes only the first 1024 bytes
    count: the result of [discover] is the result for that prefix, it stays
    the same whatever follows the prefix, and the address is built from the
    last piece of the prefix. *)
Theorem long_datagram_is_cut (r : Receiver) (env : Env) (d : list byte) :
  (1024 < length d)%nat ->
  discover r (with_datagram env d)
  = discover r (with_datagram env (take 1024 d))
  /\ (forall rest,
      discover r (with_datagram env (take 1024 d ++ rest))
      = discover r (with_datagram env d))
  /\ (listen_fault env (udpDiscoveryPort r) = None ->
      exists port,
        discover r (with_datagram env d)
        = Some (Ok ("localhost:" +:+ port))
        /\ last (Split (string_of_list_byte (take 1024 d)) " ")
           = Some port).
Proof.
  intros Hlong. split; [apply discover_prefix|]. split.
  - intros rest.
    rewrite (discover_prefix r env (take 1024 d ++ rest)),
      (discover_prefix r env d).
    rewrite take_app_le by (rewrite length_take; lia).
    rewrite take_idemp. reflexivity.
  - intros Hl. apply discover_datagram; [exact Hl|reflexivity].
Qed.

Lemma long_datagram_is_cut_witness :
  discover (NewReceiver 4 4000)
    (with_datagram reset_env
       (replicate 1019 x41 ++ list_byte_of_string " 9000"
        ++ list_byte_of_string " 1234"))
  = Some (Ok "localhost:9000").
Proof.
  destruct (long_datagram_is_cut (NewReceiver 4 4000) reset_env
              (replicate 1019 x41 ++ list_byte_of_string " 9000"
               ++ list_byte_of_string " 1234"))
    as (_ & _ & H).
  - apply Nat.ltb_lt. vm_compute. reflexivity.
  - destruct (H eq_refl) as (port & -> & Hlast).
    vm_compute in Hlast. injection Hlast as <-. reflexivity.
Defined.

(** ** The destination name *)

Lemma Ext_scan_not_stopped (p : string) (e : string) :
  Ext_scan p = (false, e) -> e = "".
Proof.
  destruct p as [|c p]; simpl; [congruence|].
  destruct (Ext_scan p) as [[|] ext]; [discriminate|].
  destruct (Ascii.eqb c "/"); [discriminate|].
  destruct (Ascii.eqb c "."); [discriminate|congruence].
Qed.

Lemma Ext_scan_stopped (pre rest ext : string) :
  Ext_scan rest = (true, ext) -> Ext_scan (pre +:+ rest) = (true, ext).
Proof.
  intros H. induction pre as [|c pre IH]; [exact H|].
  change (Ext_scan (String c (pre +:+ rest)) = (true, ext)).
  simpl. rewrite IH. reflexivity.
Qed.

(** The directories of a path have no part in its extension. *)
Lemma Ext_dir (dir base : string) :
  Ext (dir +:+ String "/" base) = Ext base.
Proof.
  unfold Ext. rewrite (Ext_scan_stopped dir _ (snd (Ext_scan base)));
    [reflexivity|].
  simpl. destruct (Ext_scan base) as [[|] ext] eqn:Hb; [reflexivity|].
  apply Ext_scan_not_stopped in Hb. subst ext. reflexivity.
Qed.

Lemma Ext_without_dot (p : string) : contains "." p = false -> Ext p = "".
Proof.
  unfold Ext. induction p as [|c p IH]; simpl; [reflexivity|].
  intros H. apply orb_false_iff in H as [Hc Hp]. specialize (IH Hp).
  destruct (Ext_scan p) as [[|] ext]; simpl in *; [assumption|].
  destruct (Ascii.eqb c "/"); [reflexivity|]. rewrite Hc. reflexivity.
Qed.

Lemma Ext_last_dot (pre suf : string) :
  contains "." suf = false -> contains "/" suf = false ->
  Ext (pre +:+ String "." suf) = String "." suf.
Proof.
  intros Hdot Hslash. unfold Ext.
  rewrite (Ext_scan_stopped pre _ (String "." suf)); [reflexivity|].
  assert (Hsuf : Ext_scan suf = (false, "")).
  { induction suf as [|c suf IH]; simpl in *; [reflexivity|].
    apply orb_false_iff in Hdot as [Hc1 Hd].
    apply orb_false_iff in Hslash as [Hc2 Hs].
    rewrite (IH Hd Hs), Hc1, Hc2. reflexivity. }
  simpl. rewrite Hsuf. reflexivity.
Qed.

(** C5 as the code has it.  The destination name is the decimal Unix time
    followed by the extension, and the extension is that of the last
    slash-separated element of the name: directories have no part in it,
    it is empty when no [.] is present, and otherwise it runs from the last
    [.] to the end provided no [/] follows that [.]. *)
Theorem dest_name_is_time_and_ext (r : Receiver) (env : Env) :
  (forall filePath,
      prepareDestFilePath r env filePath
      = itoa (unix_now env) +:+ Ext filePath)
  /\ (forall dir base, Ext (dir +:+ String "/" base) = Ext base)
  /\ (forall name, contains "." name = false -> Ext name = "")
  /\ (forall pre suf,
      contains "." suf = false -> contains "/" suf = false ->
      Ext (pre +:+ String "." suf) = String "." suf
      /\ prepareDestFilePath r env (pre +:+ String "." suf)
         = itoa (unix_now env) +:+ String "." suf).
Proof.
  split; [reflexivity|]. split; [apply Ext_dir|].
  split; [apply Ext_without_dot|].
  intros pre suf Hdot Hslash. unfold prepareDestFilePath.
  rewrite (Ext_last_dot pre suf Hdot Hslash). auto.
Qed.

Lemma dest_name_is_time_and_ext_witness :
  prepareDestFilePath (NewReceiver 4 4000) reset_env "docs/v1.2/report.pdf"
  = "1718000000.pdf".
Proof.
  destruct (dest_name_is_time_and_ext (NewReceiver 4 4000) reset_env)
    as (_ & _ & _ & H).
  destruct (H "docs/v1.2/report" "pdf" eq_refl eq_refl) as [_ Hdest].
  exact Hdest.
Defined.

(** C5 as it is stated does not hold: in "a.b/c" the last [.] stands in a
    directory; the text from it to the end is ".b/c", but the extension the
    code finds is empty and the file is named by the bare timestamp. *)
Lemma dotted_directory_has_no_ext :
  spec_last_dot_suffix "a.b/c" = ".b/c"
  /\ Ext "a.b/c" = ""
  /\ prepareDestFilePath (NewReceiver 4 4000) reset_env "a.b/c"
     = "1718000000"
  /\ prepareDestFilePath (NewReceiver 4 4000) reset_env "a.b/c"
     <> itoa (unix_now reset_env) +:+ spec_last_dot_suffix "a.b/c".
Proof.
  split; [reflexivity|]. split; [reflexivity|]. split; [reflexivity|].
  vm_compute. discriminate.
Qed.

(* ===================================================================== *)
(** * Further properties of receiver.go                                   *)
(* ===================================================================== *)

(** ** Termination *)

Lemma Read_weight_le (c : Conn) (len : nat) bs err c' :
  Read c len = (bs, err, c') -> (weight (script c') <= weight (script c))%nat.
Proof.
  destruct len as [|len].
  - unfold Read. intros [= _ _ <-]. reflexivity.
  - intros HR. destruct (Read_weight c (S len) bs err c') as [H|(H1 & H2 & _)];
      [lia|exact HR|lia|rewrite H1, H2; reflexivity].
Qed.

Lemma ReadAtLeast_loop_weight (fuel : nat) :
  forall c len min got err got' err' c',
    ReadAtLeast_loop fuel c len min got err = Some (got', err', c') ->
    (weight (script c') <= weight (script c))%nat.
Proof.
  induction fuel as [|fuel IH]; intros c len min got err got' err' c';
    rewrite ReadAtLeast_loop_eq;
    destruct ((length got <? min)%nat && is_nil err);
    try discriminate; try (intros [= _ _ <-]; reflexivity).
  destruct (Read c (len - length got)) as [[bs e1] c1] eqn:HR.
  intros HL. apply IH in HL. apply Read_weight_le in HR. lia.
Qed.

Lemma ReadFull_weight (c : Conn) (len : nat) got err c' :
  ReadFull c len = Some (got, err, c') ->
  (weight (script c') <= weight (script c))%nat.
Proof.
  unfold ReadFull, ReadAtLeast. rewrite Nat.ltb_irrefl.
  destruct (ReadAtLeast_loop _ c len len [] None) as [[[g e] c1]|] eqn:HL;
    [|discriminate].
  apply ReadAtLeast_loop_weight in HL.
  destruct (len <=? length g)%nat; [intros [= _ _ <-]; exact HL|].
  destruct ((0 <? length g)%nat && is_EOF_err e); intros [= _ _ <-]; exact HL.
Qed.

Lemma receiveFileName_weight (r : Receiver) (con : Conn) res con' :
  receiveFileName r con = Some (res, con') ->
  (weight (script con') <= weight (script con))%nat.
Proof.
  unfold receiveFileName, receiveFileNameLen.
  destruct (ReadFull con 4) as [[[buf [e|]] c1]|] eqn:H1; try discriminate.
  - intros [= _ <-]. eapply ReadFull_weight; eassumption.
  - apply ReadFull_weight in H1.
    destruct (Uint32 buf) as [n|]; [|discriminate].
    destruct (ReadFull c1 (Z.to_nat n)) as [[[nb [e|]] c2]|] eqn:H2;
      try discriminate; intros [= _ <-]; apply ReadFull_weight in H2; lia.
Qed.

Lemma content_loop_terminates (r : Receiver) (file : File) (fuel : nat) :
  (0 < chunkSize r)%nat ->
  forall con w total,
    (weight (script con) < fuel)%nat ->
    exists out, content_loop fuel r con file w total = Some out.
Proof.
  intros Hcs. induction fuel as [|fuel IH]; intros con w total Hw; [lia|].
  rewrite content_loop_S.
  destruct (Read con (chunkSize r)) as [[chunk [e|]] c1] eqn:HR.
  - destruct (is_EOF e); eauto.
  - destruct (Write file chunk w) as [[n [e|]] w1]; [eauto|].
    apply IH.
    destruct (Read_weight con (chunkSize r) chunk None c1 Hcs HR)
      as [Hlt|(_ & _ & Habs)]; [lia|discriminate].
Qed.

Lemma discover_returns (r : Receiver) (env : Env) :
  exists out, discover r env = Some out.
Proof.
  unfold discover.
  destruct (listen_fault env (udpDiscoveryPort r)); [eauto|].
  destruct (ReadFromUDP env (replicate 1024 x00)) as [e|[n buf]]; [eauto|].
  destruct (last_Split (string_of_list_byte (take n buf))) as (port & -> & _).
  eauto.
Qed.

(** Adequacy of the fuel.  A script is finite and ends in [(0, io.EOF)],
    and the environment holds a datagram or an error; that the datagram
    arrives and that the peer ends the stream is thus assumed by the model,
    it is not a property of the code, which sets no deadline.  Under that
    assumption, and with a positive chunk size, fuel above the weight of
    the script brings [Handle] to a result: the loops of the embedding do
    not run out of fuel on their own, and the index expressions of
    [discover] and of the length decoder stay in range. *)
Lemma Handle_returns (fuel : nat) (r : Receiver) (env : Env) (w : World) :
  (0 < chunkSize r)%nat ->
  (forall peer con, dial env peer = inr con ->
                    (weight (script con) < fuel)%nat) ->
  exists res w', Handle fuel r env w = Some (res, w').
Proof.
  intros Hcs Hdial. unfold Handle.
  destruct (discover_returns r env) as [[peer|e] ->]; [|eauto].
  cbn [Handle_range].
  destruct (dial env peer) as [e|con] eqn:Hd; [eauto|].
  specialize (Hdial peer con Hd).
  assert (Hrf : exists out,
    receiveFile fuel r env con
      (log_Printf ("connected to peer: " +:+ peer) w) = Some out).
  { unfold receiveFile.
    destruct (receiveFileName_returns r con) as [[[fp|e] c1] HN]; rewrite HN;
      [|eauto].
    apply receiveFileName_weight in HN.
    destruct (os_Create env _ _) as [[file|e] w1]; [|eauto].
    unfold receiveAndSaveFileContent.
    destruct (content_loop_terminates r file fuel Hcs c1 w1 0)
      as [[[[t|e] c2] w2] ->]; [lia|eauto..]. }
  destruct Hrf as [[[[e|] c2] w2] ->]; [eauto|].
  destruct (close_fault env); eauto.
Qed.

(** X2. With a chunk size of zero the content phase never ends: every
    read into the empty chunk returns [(0, nil)], nothing is consumed, and
    as long as the writes of the empty chunk succeed no amount of fuel
    brings [receiveAndSaveFileContent] or [receiveFile] to a result. *)
Theorem zero_chunk_size_never_returns (fuel : nat) (r : Receiver) (env : Env)
    (file : File) (con : Conn) (w : World) :
  chunkSize r = 0%nat ->
  write_faults w = [] ->
  receiveAndSaveFileContent fuel r con file w = None
  /\ (forall con0 filePath,
      receiveFileName r con0 = Some (Ok filePath, con) ->
      create_fault env (prepareDestFilePath r env filePath) = None ->
      receiveFile fuel r env con0 w = None).
Proof.
  intros Hz Hf. split.
  - unfold receiveAndSaveFileContent.
    rewrite content_loop_zero_chunk by assumption. reflexivity.
  - intros con0 fp HN Hc. unfold receiveFile, os_Create. rewrite HN, Hc.
    unfold receiveAndSaveFileContent.
    rewrite content_loop_zero_chunk by assumption. reflexivity.
Qed.

Lemma zero_chunk_size_never_returns_witness :
  receiveFile 50 (NewReceiver 0 4000) reset_env
    (dial_script [Data [x00; x00; x00; x00; x68; x69]]) (mkWorld ∅ [] [])
  = None.
Proof.
  destruct (zero_chunk_size_never_returns 50 (NewReceiver 0 4000) reset_env
              (mkFile "1718000000")
              (mkConn [Data [x68; x69]] [(4%nat, None)])
              (mkWorld ∅ [] []) eq_refl eq_refl) as [_ H].
  apply (H (dial_script [Data [x00; x00; x00; x00; x68; x69]]) "");
    reflexivity.
Defined.

(** ** What the content phase does to the file *)

Lemma Read_pending (c : Conn) (len : nat) bs err c' :
  Read c len = (bs, err, c') ->
  pending (script c) = bs ++ pending (script c').
Proof.
  unfold Read, pending.
  destruct len as [|len], (script c) as [|[ch|ch e] s];
    try (intros [= <- _ <-]; reflexivity);
    destruct (Nat.leb_spec (length ch) (S len));
    intros [= <- _ <-]; cbn [script map concat event_bytes];
    rewrite ?app_assoc, ?take_drop; reflexivity.
Qed.

Lemma Write_nil_count (file : File) (b : list byte) (w : World) n w' :
  Write file b w = (n, None, w') -> n = length b.
Proof.
  unfold Write. destruct (write_faults w) as [|[[k e]|] faults];
    intros [= <- _]; reflexivity.
Qed.

Lemma Write_frame (file : File) (b : list byte) (w : World) n err w' k :
  k <> fname file ->
  Write file b w = (n, err, w') -> fs w' !! k = fs w !! k.
Proof.
  intros Hk. unfold Write.
  destruct (write_faults w) as [|[[j e]|] faults]; intros [= _ _ <-];
    cbn [fs]; apply lookup_alter_ne; congruence.
Qed.

Lemma content_loop_account (r : Receiver) (file : File) (fuel : nat) :
  forall con w total pre res con' w',
    fs w !! fname file = Some pre ->
    content_loop fuel r con file w total = Some (res, con', w') ->
    exists data dropped,
      fs w' !! fname file = Some (pre ++ data)
      /\ pending (script con) = data ++ dropped ++ pending (script con')
      /\ logs w' = logs w
      /\ (forall k, k <> fname file -> fs w' !! k = fs w !! k)
      /\ (forall total', res = inl total' -> in_int total ->
            total' = int_add total (Z.of_nat (length data))).
Proof.
  induction fuel as [|fuel IH]; intros con w total pre res con' w' Hpre;
    [discriminate|].
  rewrite content_loop_S.
  destruct (Read con (chunkSize r)) as [[chunk [e|]] c1] eqn:HR;
    apply Read_pending in HR.
  - destruct (is_EOF e); intros [= <- <- <-]; exists [], chunk;
      rewrite app_nil_r; (split; [assumption|]); (split; [exact HR|]);
      (split; [reflexivity|]); (split; [reflexivity|]);
      intros total' [= <-] Hin; try discriminate.
    rewrite int_add_exact by (unfold in_int in *; simpl; lia).
    simpl. lia.
  - destruct (Write file chunk w) as [[n err] w1] eqn:HW.
    destruct (Write_appends file chunk w pre n err w1 Hpre HW) as [Hw1 Hl1].
    pose proof (fun k Hk => Write_frame file chunk w n err w1 k Hk HW) as Hfr.
    destruct err as [e|].
    + intros [= <- <- <-]. exists (take n chunk), (drop n chunk).
      split; [assumption|]. split; [rewrite app_assoc, take_drop; exact HR|].
      split; [assumption|]. split; [assumption|]. discriminate.
    + apply Write_nil_count in HW. subst n. rewrite firstn_all in Hw1.
      intros Hrun.
      destruct (IH _ _ _ _ _ _ _ Hw1 Hrun)
        as (data & dropped & Hfs & Hpend & Hlogs & Hframe & Htot).
      exists (chunk ++ data), dropped.
      split; [rewrite app_assoc; assumption|].
      split; [rewrite HR, Hpend, <- app_assoc; reflexivity|].
      split; [congruence|].
      split; [intros k Hk; rewrite Hframe, Hfr by assumption; reflexivity|].
      intros total' Hres Hin.
      rewrite (Htot total' Hres (int_add_in_int _ _)), int_add_int_add.
      rewrite length_app, Nat2Z.inj_add. reflexivity.
Qed.

(** A run used to exercise the statements below: "hello " arrives with a
    nil error, "world" together with [io.EOF]. *)
Lemma run_with_bytes_at_EOF :
  exists con',
    receiveAndSaveFileContent 8 (NewReceiver 1024 4000)
      (dial_script [Data (list_byte_of_string "hello ");
                    Fail (list_byte_of_string "world") io_EOF])
      (mkFile "out") (mkWorld {["out" := []]} [] [])
    = Some (None, con',
            mkWorld (<["out" := list_byte_of_string "hello "]>
                       {["out" := []]})
                    ["received 6 bytes from the sender"] [])
    /\ script con' = [].
Proof.
  destruct (content_loop_data_then_fail 8 (NewReceiver 1024 4000)
              (mkFile "out")
              (dial_script [Data (list_byte_of_string "hello ");
                            Fail (list_byte_of_string "world") io_EOF])
              (mkWorld {["out" := []]} [] [])
              [list_byte_of_string "hello "] (list_byte_of_string "world")
              io_EOF [] [])
    as (con' & Hs & HL);
    [cbn [chunkSize]; lia|reflexivity|cbn [chunkSize]; simpl length; lia
    |reflexivity|apply lookup_singleton_eq|simpl; lia|].
  exists con'. split; [|exact Hs].
  unfold receiveAndSaveFileContent. rewrite HL. reflexivity.
Qed.

(** X3. What [receiveAndSaveFileContent] appends to the file is always an
    initial part of what the connection held, in the same order: however the
    call ends, the stream is the bytes written, then the bytes that were
    read but not written (those returned together with an error, or the
    rest of a chunk after a short write), then the bytes still unread. *)
Theorem written_is_prefix_of_stream (fuel : nat) (r : Receiver) (file : File)
    (con : Conn) (w : World) (pre : list byte) res con' w' :
  fs w !! fname file = Some pre ->
  receiveAndSaveFileContent fuel r con file w = Some (res, con', w') ->
  exists data dropped,
    fs w' !! fname file = Some (pre ++ data)
    /\ pending (script con) = data ++ dropped ++ pending (script con').
Proof.
  intros Hpre. unfold receiveAndSaveFileContent.
  destruct (content_loop fuel r con file w 0) as [[[out c1] w1]|] eqn:HL;
    [|discriminate].
  destruct (content_loop_account r file fuel _ _ _ _ _ _ _ Hpre HL)
    as (data & dropped & Hfs & Hpend & _).
  destruct out; intros [= _ <- <-]; exists data, dropped; auto.
Qed.

Lemma written_is_prefix_of_stream_witness :
  exists data dropped,
    data ++ dropped = list_byte_of_string "hello world"
    /\ (<["out" := list_byte_of_string "hello "]>
         ({["out" := []]} : gmap string (list byte))) !! "out"
       = Some ([] ++ data).
Proof.
  destruct run_with_bytes_at_EOF as (con' & Hrun & Hs).
  destruct (written_is_prefix_of_stream 8 (NewReceiver 1024 4000)
              (mkFile "out") _ (mkWorld {["out" := []]} [] []) [] _ _ _
              (lookup_singleton_eq _ _) Hrun)
    as (data & dropped & Hfs & Hpend).
  exists data, dropped. split; [|exact Hfs].
  rewrite Hs in Hpend. cbn [pending map concat] in Hpend.
  rewrite app_nil_r in Hpend. symmetry. exact Hpend.
Defined.

(** X4. When [receiveAndSaveFileContent] returns nil, the number in its
    log line is the number of bytes it appended to the file (as a 64-bit
    [int]; below 2^63 bytes the plain number), and that line is the only
    one it logs. *)
Theorem logged_count_is_bytes_written (fuel : nat) (r : Receiver)
    (file : File) (con : Conn) (w : World) (pre : list byte) con' w' :
  fs w !! fname file = Some pre ->
  receiveAndSaveFileContent fuel r con file w = Some (None, con', w') ->
  exists data,
    fs w' !! fname file = Some (pre ++ data)
    /\ logs w' = logs w ++ ["received "
                            +:+ itoa (int_add 0 (Z.of_nat (length data)))
                            +:+ " bytes from the sender"]
    /\ (Z.of_nat (length data) < 2 ^ 63 ->
        int_add 0 (Z.of_nat (length data)) = Z.of_nat (length data)).
Proof.
  intros Hpre. unfold receiveAndSaveFileContent.
  destruct (content_loop fuel r con file w 0) as [[[out c1] w1]|] eqn:HL;
    [|discriminate].
  destruct (content_loop_account r file fuel _ _ _ _ _ _ _ Hpre HL)
    as (data & dropped & Hfs & _ & Hlogs & _ & Htot).
  destruct out as [total|e]; [|discriminate]. intros [= <- <-].
  exists data. cbn [log_Printf fs logs]. split; [assumption|].
  rewrite (Htot total eq_refl) by (unfold in_int; lia).
  split; [rewrite Hlogs; reflexivity|].
  intros Hsmall. apply int_add_exact. unfold in_int. lia.
Qed.

Lemma logged_count_is_bytes_written_witness :
  exists data,
    (<["out" := list_byte_of_string "hello "]>
       ({["out" := []]} : gmap string (list byte))) !! "out"
    = Some ([] ++ data)
    /\ ["received 6 bytes from the sender"]
       = [] ++ ["received " +:+ itoa (int_add 0 (Z.of_nat (length data)))
                +:+ " bytes from the sender"].
Proof.
  destruct run_with_bytes_at_EOF as (con' & Hrun & _).
  destruct (logged_count_is_bytes_written 8 (NewReceiver 1024 4000)
              (mkFile "out") _ (mkWorld {["out" := []]} [] []) [] _ _
              (lookup_singleton_eq _ _) Hrun)
    as (data & Hfs & Hlogs & _).
  exists data. split; [exact Hfs|exact Hlogs].
Defined.

(** X5. Neither the chunk size nor the way the network cuts the stream
    changes the outcome: two receivers with any positive chunk sizes, fed
    the same bytes in any two segmentations and then closed, both return
    nil and leave the same world, the file holding exactly those bytes
    after what it held before. *)
Theorem chunking_does_not_matter (fuel1 fuel2 : nat) (r1 r2 : Receiver)
    (file : File) (c1 c2 : Conn) (w : World)
    (chunks1 chunks2 : list (list byte)) (pre : list byte) :
  (0 < chunkSize r1)%nat -> (0 < chunkSize r2)%nat ->
  script c1 = map Data chunks1 -> script c2 = map Data chunks2 ->
  concat chunks1 = concat chunks2 ->
  write_faults w = [] ->
  fs w !! fname file = Some pre ->
  Z.of_nat (length (concat chunks1)) < 2 ^ 63 ->
  (weight (script c1) < fuel1)%nat -> (weight (script c2) < fuel2)%nat ->
  exists c1' c2' w',
    receiveAndSaveFileContent fuel1 r1 c1 file w = Some (None, c1', w')
    /\ receiveAndSaveFileContent fuel2 r2 c2 file w = Some (None, c2', w')
    /\ fs w' !! fname file = Some (pre ++ concat chunks1).
Proof.
  intros Hr1 Hr2 Hs1 Hs2 Heq Hf Hpre Hsmall Hw1 Hw2.
  destruct (content_stream_copied fuel1 r1 file c1 w chunks1 pre
              Hr1 Hs1 Hf Hpre Hsmall Hw1) as (c1' & H1).
  destruct (content_stream_copied fuel2 r2 file c2 w chunks2 pre
              Hr2 Hs2 Hf Hpre) as (c2' & H2);
    [rewrite <- Heq; assumption|assumption|].
  rewrite <- Heq in H2.
  eexists c1', c2', _. split; [exact H1|]. split; [exact H2|].
  cbn [fs]. apply lookup_insert_eq.
Qed.

Lemma chunking_does_not_matter_witness :
  exists c1' c2' w',
    receiveAndSaveFileContent 9 (NewReceiver 2 4000)
      (dial_script [Data [x68; x69; x21]]) (mkFile "out")
      (mkWorld {["out" := []]} [] [])
    = Some (None, c1', w')
    /\ receiveAndSaveFileContent 9 (NewReceiver 64 4000)
         (dial_script [Data [x68]; Data []; Data [x69; x21]]) (mkFile "out")
         (mkWorld {["out" := []]} [] [])
       = Some (None, c2', w')
    /\ fs w' !! "out" = Some [x68; x69; x21].
Proof.
  apply (chunking_does_not_matter 9 9 (NewReceiver 2 4000)
           (NewReceiver 64 4000) (mkFile "out")
           (dial_script [Data [x68; x69; x21]])
           (dial_script [Data [x68]; Data []; Data [x69; x21]])
           (mkWorld {["out" := []]} [] [])
           [[x68; x69; x21]] [[x68]; []; [x69; x21]] []);
    try reflexivity; try (cbn [chunkSize]; lia); try (simpl; lia).
Defined.

(** ** The whole run *)

Lemma receiveFileName_frame (r : Receiver) (c : Conn)
    (payload rest : list byte) chunks tail :
  Z.of_nat (length payload) <= 2 ^ 32 - 1 ->
  script c = map Data chunks ++ tail ->
  concat chunks = encode_frame payload ++ rest ->
  exists c2 chunks2,
    receiveFileName r c = Some (Ok (string_of_list_byte payload), c2)
    /\ script c2 = map Data chunks2 ++ tail
    /\ concat chunks2 = rest.
Proof.
  intros HL Hs Hcat. unfold encode_frame in Hcat.
  rewrite <- app_assoc in Hcat.
  destruct (receiveFileNameLen_decodes r c chunks tail _ _
              (Z.of_nat (length payload)) Hs Hcat (PutUint32_length _))
    as (c1 & chunks1 & HN & Hs1 & Hcat1).
  { rewrite <- (app_nil_r (PutUint32 _)). apply Uint32_PutUint32. lia. }
  destruct (ReadFull_exact c1 chunks1 tail payload rest Hs1 Hcat1)
    as (c2 & chunks2 & HR & Hs2 & Hcat2).
  exists c2, chunks2. split; [|auto].
  unfold receiveFileName. rewrite HN, Nat2Z.id, HR. reflexivity.
Qed.

(** X6. A complete transfer.  The peer is discovered and reached, sends
    the name frame and the content in any segmentation and closes; the
    destination can be created and written.  Then the file named by the
    timestamp and the extension of the sent name holds exactly the content,
    whatever a file of that name held before, no other file has changed,
    the log has the two lines of the run, and [Handle] returns nil, or,
    if closing the connection fails, that error although the file is
    complete. *)
Theorem complete_transfer (fuel : nat) (r : Receiver) (env : Env) (w : World)
    (peer : string) (con : Conn) (chunks : list (list byte))
    (name content : list byte) :
  discover r env = Some (Ok peer) ->
  dial env peer = inr con ->
  script con = map Data chunks ->
  concat chunks = encode_frame name ++ content ->
  Z.of_nat (length name) <= 2 ^ 32 - 1 ->
  Z.of_nat (length content) < 2 ^ 63 ->
  create_fault env (itoa (unix_now env)
                    +:+ Ext (string_of_list_byte name)) = None ->
  write_faults w = [] ->
  (0 < chunkSize r)%nat ->
  (weight (script con) < fuel)%nat ->
  Handle fuel r env w
  = Some (match close_fault env with
          | None => None
          | Some err => Some (Errorf "err closing connection: " err)
          end,
          mkWorld (<[itoa (unix_now env) +:+ Ext (string_of_list_byte name)
                     := content]> (fs w))
                  (logs w ++ ["connected to peer: " +:+ peer;
                              "received " +:+ itoa (Z.of_nat (length content))
                              +:+ " bytes from the sender"])
                  []).
Proof.
  intros HD Hdial Hs Hcat Hname Hcontent Hcreate Hf Hcs Hfuel.
  rewrite <- (app_nil_r (map Data chunks)) in Hs.
  destruct (receiveFileName_frame r con name content chunks [] Hname Hs Hcat)
    as (c2 & chunks2 & HN & Hs2 & Hcat2).
  rewrite app_nil_r in Hs2.
  pose proof (receiveFileName_weight r con _ _ HN) as Hw2.
  set (dest := itoa (unix_now env) +:+ Ext (string_of_list_byte name)) in *.
  set (w0 := log_Printf ("connected to peer: " +:+ peer) w).
  destruct (content_stream_copied fuel r (mkFile dest) c2
              (mkWorld (<[dest := []]> (fs w0)) (logs w0) (write_faults w0))
              chunks2 [] Hcs Hs2 Hf (lookup_insert_eq _ _ _))
    as (c3 & HS); [rewrite Hcat2; assumption|lia|].
  assert (HC : os_Create env (prepareDestFilePath r env
                                (string_of_list_byte name)) w0
               = (Ok (mkFile dest),
                  mkWorld (<[dest := []]> (fs w0)) (logs w0)
                          (write_faults w0))).
  { unfold os_Create, prepareDestFilePath. fold dest. rewrite Hcreate.
    reflexivity. }
  pose proof (receiveFile_content fuel r env con w0 _ c2 _ _ None c3 _
                HN HC HS) as HRF.
  unfold Handle. rewrite HD. cbn [Handle_range]. rewrite Hdial.
  fold w0. rewrite HRF. cbn [option_map].
  cbn [fs logs fname app w0 log_Printf]. rewrite insert_insert_eq, Hcat2.
  rewrite <- app_assoc. destruct (close_fault env); reflexivity.
Qed.

Lemma complete_transfer_witness :
  Handle 20 (NewReceiver 4 4000)
    (mkEnv 1718000000 (fun _ => None)
       (inr (list_byte_of_string "HELLO 9000"))
       (fun _ => inr (dial_script
          [Data (encode_frame (list_byte_of_string "a.b")
                 ++ list_byte_of_string "xy"); Data [x7a]]))
       (fun _ => None) None)
    (mkWorld {["1718000000.b" := [x00]]} [] [])
  = Some (None,
          mkWorld (<["1718000000.b" := list_byte_of_string "xyz"]>
                     {["1718000000.b" := [x00]]})
                  ["connected to peer: localhost:9000";
                   "received 3 bytes from the sender"] []).
Proof.
  assert (H1 : Z.of_nat (length (list_byte_of_string "a.b")) <= 2 ^ 32 - 1)
    by (simpl; lia).
  assert (H2 : Z.of_nat (length (list_byte_of_string "xyz")) < 2 ^ 63)
    by (simpl; lia).
  assert (H3 : (0 < chunkSize (NewReceiver 4 4000))%nat)
    by (cbn [chunkSize]; lia).
  assert (H4 : (weight (script (dial_script
                  [Data (encode_frame (list_byte_of_string "a.b")
                         ++ list_byte_of_string "xy"); Data [x7a]])) < 20)%nat)
    by (simpl; lia).
  exact (complete_transfer 20 (NewReceiver 4 4000)
           (mkEnv 1718000000 (fun _ => None)
              (inr (list_byte_of_string "HELLO 9000"))
              (fun _ => inr (dial_script
                 [Data (encode_frame (list_byte_of_string "a.b")
                        ++ list_byte_of_string "xy"); Data [x7a]]))
              (fun _ => None) None)
           (mkWorld {["1718000000.b" := [x00]]} [] [])
           "localhost:9000" _
           [encode_frame (list_byte_of_string "a.b")
            ++ list_byte_of_string "xy"; [x7a]]
           (list_byte_of_string "a.b") (list_byte_of_string "xyz")
           eq_refl eq_refl eq_refl eq_refl H1 H2 eq_refl eq_refl H3 H4).
Defined.

Lemma receiveFile_frame (fuel : nat) (r : Receiver) (env : Env)
    (con : Conn) (w : World) res con' w' :
  receiveFile fuel r env con w = Some (res, con', w') ->
  (forall k, (forall filePath, k <> prepareDestFilePath r env filePath) ->
             fs w' !! k = fs w !! k)
  /\ (forall k, is_Some (fs w !! k) -> is_Some (fs w' !! k))
  /\ exists lines, logs w' = logs w ++ lines.
Proof.
  unfold receiveFile.
  destruct (receiveFileName r con) as [[[fp|e] c1]|]; [| |discriminate].
  2: { intros [= _ _ <-]. split; [reflexivity|]. split; [auto|].
       exists []. rewrite app_nil_r. reflexivity. }
  unfold os_Create.
  destruct (create_fault env (prepareDestFilePath r env fp)) as [e|].
  { intros [= _ _ <-]. split; [reflexivity|]. split; [auto|].
    exists []. rewrite app_nil_r. reflexivity. }
  set (dest := prepareDestFilePath r env fp).
  set (w1 := mkWorld (<[dest := []]> (fs w)) (logs w) (write_faults w)).
  unfold receiveAndSaveFileContent.
  destruct (content_loop fuel r c1 (mkFile dest) w1 0)
    as [[[out c2] w2]|] eqn:HL; [|discriminate].
  destruct (content_loop_account r (mkFile dest) fuel c1 w1 0 [] out c2 w2
              (lookup_insert_eq _ _ _) HL)
    as (data & _ & Hfs & _ & Hlogs & Hframe & _).
  cbn [fname] in Hfs, Hframe.
  assert (Hkeep : (forall k, (forall filePath,
                      k <> prepareDestFilePath r env filePath) ->
                      fs w2 !! k = fs w !! k)
                  /\ (forall k, is_Some (fs w !! k) -> is_Some (fs w2 !! k))).
  { split.
    - intros k Hk. rewrite Hframe by apply Hk. unfold w1. cbn [fs].
      apply lookup_insert_ne. intros Heq. apply (Hk fp). symmetry. exact Heq.
    - intros k Hsome. destruct (decide (k = dest)) as [->|Hne].
      + rewrite Hfs. eauto.
      + rewrite Hframe by assumption. unfold w1. cbn [fs].
        rewrite lookup_insert_ne by congruence. assumption. }
  destruct Hkeep as [Hk1 Hk2].
  destruct out as [total|e]; intros [= _ _ <-]; cbn [log_Printf fs logs];
    (split; [assumption|]); (split; [assumption|]); rewrite Hlogs;
    unfold w1; cbn [logs]; eauto.
  exists []. rewrite app_nil_r. reflexivity.
Qed.

(** X7. Whatever happens in a run of [Handle], the only file it can change
    is one named by the timestamp followed by an extension: every file
    with another name keeps its contents, no file is ever removed, and
    the log is only appended to. *)
Theorem only_the_destination_changes (fuel : nat) (r : Receiver) (env : Env)
    (w : World) res w' :
  Handle fuel r env w = Some (res, w') ->
  (forall k, (forall filePath, k <> prepareDestFilePath r env filePath) ->
             fs w' !! k = fs w !! k)
  /\ (forall k, is_Some (fs w !! k) -> is_Some (fs w' !! k))
  /\ exists lines, logs w' = logs w ++ lines.
Proof.
  unfold Handle.
  destruct (discover r env) as [[peer|e]|]; [| |discriminate].
  2: { intros [= _ <-]. split; [reflexivity|]. split; [auto|].
       exists []. rewrite app_nil_r. reflexivity. }
  cbn [Handle_range]. destruct (dial env peer) as [e|con].
  { intros [= _ <-]. cbn [log_Printf fs logs].
    split; [reflexivity|]. split; [auto|]. eauto. }
  destruct (receiveFile fuel r env con _) as [[[res0 c'] w1]|] eqn:HRF;
    [|discriminate].
  apply receiveFile_frame in HRF as (H1 & H2 & lines & H3).
  cbn [log_Printf fs logs] in H1, H2, H3.
  assert (Hout : w' = w1 ->
    (forall k, (forall filePath, k <> prepareDestFilePath r env filePath) ->
               fs w' !! k = fs w !! k)
    /\ (forall k, is_Some (fs w !! k) -> is_Some (fs w' !! k))
    /\ exists lines, logs w' = logs w ++ lines).
  { intros ->. split; [assumption|]. split; [assumption|].
    rewrite H3, <- app_assoc. eauto. }
  destruct res0 as [e|]; [intros [= _ <-]; auto|].
  destruct (close_fault env); intros [= _ <-]; auto.
Qed.

Lemma only_the_destination_changes_witness :
  (<["1718000000.b" := list_byte_of_string "xyz"]>
     ({["notes.txt" := [x01]]} : gmap string (list byte))) !! "notes.txt"
  = ({["notes.txt" := [x01]]} : gmap string (list byte)) !! "notes.txt".
Proof.
  destruct (only_the_destination_changes 20 (NewReceiver 4 4000) reset_env
              (mkWorld {["notes.txt" := [x01]]} [] [])
              (Some (errors_New
                 "err receiving file: err receiving and saving file content: err receiving file chunk: connection reset by peer"))
              (mkWorld (<["1718000000.b" := list_byte_of_string "xyz"]>
                          {["notes.txt" := [x01]]})
                       ["connected to peer: localhost:9000"] [])
              eq_refl) as (H & _ & _).
  apply (H "notes.txt"). intros filePath. unfold prepareDestFilePath.
  change (itoa (unix_now reset_env)) with "1718000000". discriminate.
Defined.

(** ** The shape of the destination name *)

Lemma contains_append (c : ascii) (a b : string) :
  contains c (a +:+ b) = contains c a || contains c b.
Proof.
  induction a as [|x a IH]; [reflexivity|].
  change (contains c (String x (a +:+ b))
          = contains c (String x a) || contains c b).
  simpl. rewrite IH, orb_assoc. reflexivity.
Qed.

Lemma Ext_scan_shape (p : string) :
  match Ext_scan p with
  | (false, e) =>
      e = "" /\ contains "/" p = false /\ contains "." p = false
  | (true, e) =>
      (e = "" \/ exists suf, e = String "." suf
                            /\ contains "." suf = false
                            /\ contains "/" suf = false)
      /\ exists pre, p = pre +:+ e
  end.
Proof.
  induction p as [|c p IH]; [simpl; auto|].
  simpl. destruct (Ext_scan p) as [[|] ext].
  - destruct IH as [Hshape [pre ->]]. split; [assumption|].
    exists (String c pre). reflexivity.
  - destruct IH as (-> & Hslash & Hdot).
    destruct (Ascii.eqb_spec c "/") as [->|Hc1].
    { split; [auto|]. exists (String "/" p). simpl.
      rewrite append_empty_r. reflexivity. }
    destruct (Ascii.eqb_spec c ".") as [->|Hc2].
    { split; [right; eauto|]. exists "". reflexivity. }
    auto.
Qed.

Lemma itoa_has_no_separator (z : Z) : contains "/" (itoa z) = false.
Proof.
  assert (Hu : forall d, contains "/" (NilEmpty.string_of_uint d) = false)
    by (induction d; simpl; auto).
  assert (Hz : forall d, contains "/" (NilZero.string_of_uint d) = false)
    by (destruct d; try reflexivity; apply Hu).
  unfold itoa, NilZero.string_of_int.
  destruct (Z.to_int z); [apply Hz|]. simpl. apply Hz.
Qed.

(** X8. The destination never leaves the working directory: whatever name
    the sender gives, the destination name contains no ['/']; the extension
    is a final part of the sent name, and it is empty or a ['.'] followed by
    bytes that are neither ['.'] nor ['/']. *)
Theorem destination_has_no_directory (r : Receiver) (env : Env)
    (filePath : string) :
  contains "/" (prepareDestFilePath r env filePath) = false
  /\ (exists pre, filePath = pre +:+ Ext filePath)
  /\ (Ext filePath = ""
      \/ exists suf, Ext filePath = String "." suf
                     /\ contains "." suf = false
                     /\ contains "/" suf = false).
Proof.
  unfold prepareDestFilePath, Ext.
  pose proof (Ext_scan_shape filePath) as H.
  destruct (Ext_scan filePath) as [[|] ext]; cbn [snd].
  - destruct H as [Hshape Hsuf]. split; [|auto].
    rewrite contains_append, itoa_has_no_separator.
    destruct Hshape as [->|(suf & -> & _ & Hs)]; [reflexivity|].
    simpl. exact Hs.
  - destruct H as (-> & _ & _). split; [|split; [|auto]].
    + rewrite contains_append, itoa_has_no_separator. reflexivity.
    + exists filePath. rewrite append_empty_r. reflexivity.
Qed.

(** ** The value of the name length *)

Lemma lor_disjoint (x m k : Z) :
  0 <= k -> 0 <= x < 2 ^ k -> 0 <= m -> Z.lor x (m * 2 ^ k) = x + m * 2 ^ k.
Proof.
  intros Hk Hx Hm. symmetry. apply Z.add_nocarry_lor.
  rewrite <- Z.shiftl_mul_pow2 by assumption.
  apply Z.bits_inj'. intros n Hn. rewrite Z.land_spec, Z.bits_0.
  destruct (Z.ltb_spec n k).
  - rewrite Z.shiftl_spec_low by assumption. apply andb_false_r.
  - replace (Z.testbit x n) with false; [reflexivity|].
    symmetry. destruct (Z.eq_dec x 0) as [->|Hnz]; [apply Z.bits_0|].
    apply Z.bits_above_log2; [lia|].
    assert (Z.log2 x < k) by (apply Z.log2_lt_pow2; lia). lia.
Qed.

Lemma Uint32_value (b0 b1 b2 b3 : byte) (rest : list byte) :
  Uint32 (b0 :: b1 :: b2 :: b3 :: rest)
  = Some (byte_val b0 + 256 * byte_val b1 + 65536 * byte_val b2
          + 16777216 * byte_val b3).
Proof.
  cbn [Uint32]. f_equal.
  pose proof (byte_val_range b0). pose proof (byte_val_range b1).
  pose proof (byte_val_range b2). pose proof (byte_val_range b3).
  rewrite !Z.shiftl_mul_pow2 by lia.
  rewrite (lor_disjoint (byte_val b2 * 2 ^ 16) (byte_val b3) 24) by lia.
  replace (byte_val b2 * 2 ^ 16 + byte_val b3 * 2 ^ 24)
    with ((byte_val b2 + byte_val b3 * 2 ^ 8) * 2 ^ 16) by lia.
  rewrite (lor_disjoint (byte_val b1 * 2 ^ 8) _ 16) by lia.
  replace (byte_val b1 * 2 ^ 8
           + (byte_val b2 + byte_val b3 * 2 ^ 8) * 2 ^ 16)
    with ((byte_val b1 + byte_val b2 * 2 ^ 8 + byte_val b3 * 2 ^ 16) * 2 ^ 8)
    by lia.
  rewrite (lor_disjoint (byte_val b0) _ 8) by lia. lia.
Qed.

(** X9. The name length is the little-endian value of the first four
    bytes of the stream, [b0 + 2^8 b1 + 2^16 b2 + 2^24 b3], in whatever
    pieces they arrive; every length that [receiveFileNameLen] returns lies
    in [0, 2^32). *)
Theorem name_length_is_little_endian (r : Receiver) :
  (forall con n con',
      receiveFileNameLen r con = Some (Ok n, con') -> 0 <= n < 2 ^ 32)
  /\ (forall c chunks tail b0 b1 b2 b3 rest,
      script c = map Data chunks ++ tail ->
      concat chunks = [b0; b1; b2; b3] ++ rest ->
      exists c1 chunks1,
        receiveFileNameLen r c
        = Some (Ok (byte_val b0 + 256 * byte_val b1 + 65536 * byte_val b2
                    + 16777216 * byte_val b3), c1)
        /\ script c1 = map Data chunks1 ++ tail
        /\ concat chunks1 = rest).
Proof.
  split.
  - intros con n con'. unfold receiveFileNameLen.
    destruct (ReadFull con 4) as [[[buf [e|]] c1]|]; try discriminate.
    destruct (Uint32 buf) as [v|] eqn:Hv; [|discriminate].
    intros [= <- _]. eapply Uint32_range. eassumption.
  - intros c chunks tail b0 b1 b2 b3 rest Hs Hcat.
    apply (receiveFileNameLen_decodes r c chunks tail [b0; b1; b2; b3] rest);
      [assumption|assumption|reflexivity|apply Uint32_value].
Qed.

Lemma name_length_is_little_endian_witness :
  exists c1,
    receiveFileNameLen (NewReceiver 4 4000)
      (dial_script [Data [x2c; x01]; Data [x00; x00; x61]])
    = Some (Ok 300, c1).
Proof.
  destruct (name_length_is_little_endian (NewReceiver 4 4000)) as [_ H].
  destruct (H (dial_script [Data [x2c; x01]; Data [x00; x00; x61]])
              [[x2c; x01]; [x00; x00; x61]] [] x2c x01 x00 x00 [x61]
              eq_refl eq_refl) as (c1 & chunks1 & HN & _).
  exists c1. exact HN.
Defined.

(** ** Errors inside the handshake *)

Lemma ReadAtLeast_loop_run (chunks : list (list byte)) :
  forall c tail want got,
    script c = map Data chunks ++ tail ->
    (length got + length (concat chunks) < want)%nat ->
    exists c1,
      script c1 = tail
      /\ forall extra,
          ReadAtLeast_loop (length chunks + extra) c want want got None
          = ReadAtLeast_loop extra c1 want want (got ++ concat chunks) None.
Proof.
  induction chunks as [|ch chunks IH]; intros c tail want got Hs Hlen.
  - exists c. split; [assumption|]. intros extra. simpl.
    rewrite app_nil_r. reflexivity.
  - cbn [map app concat] in Hs, Hlen. rewrite length_app in Hlen.
    destruct (Read_Data_whole c (want - length got) ch _ Hs)
      as (c0 & HR & Hs0 & _); [lia..|].
    destruct (IH c0 tail want (got ++ ch) Hs0) as (c1 & Hs1 & Hrun);
      [rewrite length_app; lia|].
    exists c1. split; [assumption|]. intros extra.
    cbn [length Nat.add]. rewrite ReadAtLeast_loop_eq.
    replace (length got <? want)%nat with true
      by (symmetry; apply Nat.ltb_lt; lia).
    cbn [andb is_nil]. rewrite HR, Hrun. cbn [concat].
    rewrite app_assoc. reflexivity.
Qed.

Lemma ReadFull_data_then_fail (c : Conn) chunks bs e rest (want : nat) :
  script c = map Data chunks ++ Fail bs e :: rest ->
  (length (concat chunks) < want)%nat ->
  (length (concat chunks) + length bs <= want)%nat ->
  exists c',
    script c' = rest
    /\ ReadFull c want
       = Some (concat chunks ++ bs,
               (if (want <=? length (concat chunks ++ bs))%nat then None
                else if (0 <? length (concat chunks ++ bs))%nat && is_EOF e
                     then Some io_ErrUnexpectedEOF
                     else Some e),
               c').
Proof.
  intros Hs Hlt Hfit.
  destruct (ReadAtLeast_loop_run chunks c (Fail bs e :: rest) want [] Hs)
    as (c1 & Hs1 & Hrun); [simpl; lia|].
  destruct (Read_Fail_whole c1 (want - length (concat chunks)) bs e rest Hs1)
    as (c' & HR & Hs' & _); [lia..|].
  exists c'. split; [assumption|].
  unfold ReadFull, ReadAtLeast. rewrite Nat.ltb_irrefl.
  assert (Hw : (length chunks < weight (script c))%nat).
  { rewrite Hs. clear. induction chunks; simpl; lia. }
  replace (S (weight (script c)))
    with (length chunks + S (weight (script c) - length chunks))%nat by lia.
  rewrite Hrun, ReadAtLeast_loop_eq. cbn [app].
  replace (length (concat chunks) <? want)%nat with true
    by (symmetry; apply Nat.ltb_lt; lia).
  cbn [andb is_nil]. rewrite HR, ReadAtLeast_loop_eq.
  cbn [is_nil]. rewrite andb_false_r. cbn [is_EOF_err].
  destruct (want <=? length (concat chunks ++ bs))%nat; [reflexivity|].
  destruct ((0 <? length (concat chunks ++ bs))%nat && is_EOF e);
    reflexivity.
Qed.

(** X10. In the handshake, bytes that a read returns together with an
    error are not lost: when the last bytes of the name arrive together
    with an error, [io.EOF] included, [receiveFileName] still succeeds with
    the whole name and the error is dropped. *)
Theorem handshake_keeps_bytes_read_with_error (r : Receiver) (c : Conn)
    chunks (hdr name1 bs : list byte) (e : error) (rest : list event) :
  script c = map Data chunks ++ Fail bs e :: rest ->
  concat chunks = hdr ++ name1 ->
  length hdr = 4%nat ->
  Uint32 hdr = Some (Z.of_nat (length (name1 ++ bs))) ->
  bs <> [] ->
  exists c',
    receiveFileName r c = Some (Ok (string_of_list_byte (name1 ++ bs)), c')
    /\ script c' = rest.
Proof.
  intros Hs Hcat Hlen Hdec Hbs.
  destruct (receiveFileNameLen_decodes r c chunks (Fail bs e :: rest) hdr
              name1 _ Hs Hcat Hlen Hdec) as (c1 & chunks1 & HN & Hs1 & Hcat1).
  assert (Hpos : (0 < length bs)%nat) by (destruct bs; [congruence|simpl; lia]).
  destruct (ReadFull_data_then_fail c1 chunks1 bs e rest
              (length (name1 ++ bs)) Hs1) as (c' & Hs' & HR);
    [rewrite Hcat1, length_app; lia..|].
  exists c'. split; [|assumption].
  unfold receiveFileName. rewrite HN, Nat2Z.id, HR, Hcat1, Nat.leb_refl.
  reflexivity.
Qed.

Lemma handshake_keeps_bytes_read_with_error_witness :
  exists c',
    receiveFileName (NewReceiver 4 4000)
      (dial_script [Data [x03; x00; x00; x00; x61]; Fail [x2e; x62] io_EOF])
    = Some (Ok "a.b", c')
    /\ script c' = [].
Proof.
  apply (handshake_keeps_bytes_read_with_error (NewReceiver 4 4000)
           (dial_script
              [Data [x03; x00; x00; x00; x61]; Fail [x2e; x62] io_EOF])
           [[x03; x00; x00; x00; x61]] [x03; x00; x00; x00] [x61]
           [x2e; x62] io_EOF []); try reflexivity. discriminate.
Defined.

(** X11. An error of the transport while the name length is being read
    ends the session with that error, wrapped as a name-length read error
    ([io.EOF] after at least one byte becomes [io.ErrUnexpectedEOF]); the
    world is returned as it was and the rest of the connection is left
    unread. *)
Theorem handshake_reports_transport_error (fuel : nat) (r : Receiver)
    (env : Env) (w : World) (c : Conn) chunks bs e rest :
  script c = map Data chunks ++ Fail bs e :: rest ->
  (length (concat chunks) + length bs < 4)%nat ->
  exists c',
    receiveFile fuel r env c w
    = Some (Some (Errorf "err receiving file name: "
                   (Errorf "err receiving file name len: "
                     (Errorf "err receiving file name length: "
                       (if (0 <? length (concat chunks ++ bs))%nat
                           && is_EOF e
                        then io_ErrUnexpectedEOF else e)))), c', w)
    /\ script c' = rest.
Proof.
  intros Hs Hlen.
  destruct (ReadFull_data_then_fail c chunks bs e rest 4 Hs)
    as (c' & Hs' & HR); [lia..|].
  exists c'. split; [|assumption].
  unfold receiveFile, receiveFileName, receiveFileNameLen. rewrite HR.
  replace (4 <=? length (concat chunks ++ bs))%nat with false
    by (symmetry; apply Nat.leb_gt; rewrite length_app; lia).
  destruct ((0 <? length (concat chunks ++ bs))%nat && is_EOF e);
    reflexivity.
Qed.

Lemma handshake_reports_transport_error_witness :
  exists c',
    receiveFile 8 (NewReceiver 4 4000) reset_env
      (dial_script [Data [x03; x00];
                    Fail [] (errors_New "connection reset by peer");
                    Data [x00; x00]])
      (mkWorld ∅ [] [])
    = Some (Some (errors_New
          "err receiving file name: err receiving file name len: err receiving file name length: connection reset by peer"),
            c', mkWorld ∅ [] [])
    /\ script c' = [Data [x00; x00]].
Proof.
  apply (handshake_reports_transport_error 8 (NewReceiver 4 4000) reset_env
           (mkWorld ∅ [] [])
           (dial_script [Data [x03; x00];
                         Fail [] (errors_New "connection reset by peer");
                         Data [x00; x00]])
           [[x03; x00]] [] (errors_New "connection reset by peer")
           [Data [x00; x00]]); [reflexivity|simpl; lia].
Defined.

(** ** What the handshake takes from the stream *)

Lemma ReadAtLeast_loop_pending (fuel : nat) :
  forall c len min got err got' err' c',
    (length got <= len)%nat ->
    ReadAtLeast_loop fuel c len min got err = Some (got', err', c') ->
    exists new,
      got' = got ++ new
      /\ pending (script c) = new ++ pending (script c')
      /\ (length got' <= len)%nat.
Proof.
  induction fuel as [|fuel IH]; intros c len min got err got' err' c' Hlen;
    rewrite ReadAtLeast_loop_eq;
    destruct ((length got <? min)%nat && is_nil err);
    try discriminate;
    try (intros [= <- _ <-]; exists []; rewrite app_nil_r; auto).
  destruct (Read c (len - length got)) as [[bs e1] c1] eqn:HR.
  pose proof (Read_length _ _ _ _ _ HR) as Hbs.
  apply Read_pending in HR. intros HL.
  destruct (IH c1 len min (got ++ bs) e1 got' err' c') as (new & -> & Hp & Hl);
    [rewrite length_app; lia|assumption|].
  exists (bs ++ new). rewrite app_assoc. split; [reflexivity|].
  split; [rewrite HR, Hp, app_assoc; reflexivity|assumption].
Qed.

Lemma ReadFull_pending (c : Conn) (len : nat) got err c' :
  ReadFull c len = Some (got, err, c') ->
  pending (script c) = got ++ pending (script c')
  /\ (length got <= len)%nat.
Proof.
  unfold ReadFull, ReadAtLeast. rewrite Nat.ltb_irrefl.
  destruct (ReadAtLeast_loop _ c len len [] None) as [[[g e] c1]|] eqn:HL;
    [|discriminate].
  apply ReadAtLeast_loop_pending in HL as (new & -> & Hp & Hl);
    [|simpl; lia].
  cbn [app] in *.
  destruct (len <=? length new)%nat; [intros [= <- _ <-]; auto|].
  destruct ((0 <? length new)%nat && is_EOF_err e); intros [= <- _ <-]; auto.
Qed.

Lemma split_low_byte (a q : Z) :
  0 <= a < 256 -> (a + 256 * q) mod 256 = a /\ (a + 256 * q) / 256 = q.
Proof.
  intros Ha. split; symmetry.
  - apply (Z.mod_unique_pos _ _ q); lia.
  - apply (Z.div_unique_pos _ _ _ a); lia.
Qed.

Lemma byte_of_Z_low (a q : Z) (b : byte) :
  byte_val b = a -> byte_of_Z (a + 256 * q) = b.
Proof.
  intros <-. pose proof (byte_val_range b) as Hb.
  destruct (split_low_byte (byte_val b) q Hb) as [Hm _].
  rewrite <- (byte_of_Z_byte_val b) at 2.
  unfold byte_of_Z. rewrite Hm, (Z.mod_small (byte_val b)) by lia.
  reflexivity.
Qed.

(** The four bytes are determined by the value they encode. *)
Lemma PutUint32_Uint32 (b0 b1 b2 b3 : byte) (v : Z) :
  Uint32 [b0; b1; b2; b3] = Some v -> PutUint32 v = [b0; b1; b2; b3].
Proof.
  rewrite Uint32_value. intros [= <-]. unfold PutUint32.
  pose proof (byte_val_range b0). pose proof (byte_val_range b1).
  pose proof (byte_val_range b2). pose proof (byte_val_range b3).
  rewrite !Z.shiftr_div_pow2 by lia.
  set (q2 := byte_val b2 + 256 * byte_val b3).
  set (q1 := byte_val b1 + 256 * q2).
  replace (byte_val b0 + 256 * byte_val b1 + 65536 * byte_val b2
           + 16777216 * byte_val b3) with (byte_val b0 + 256 * q1)
    by (unfold q1, q2; lia).
  assert (H8 : (byte_val b0 + 256 * q1) / 2 ^ 8 = q1)
    by (apply split_low_byte; assumption).
  assert (H16 : (byte_val b0 + 256 * q1) / 2 ^ 16 = q2).
  { change (2 ^ 16) with (2 ^ 8 * 2 ^ 8).
    rewrite <- Z.div_div by lia. rewrite H8.
    apply split_low_byte. assumption. }
  assert (H24 : (byte_val b0 + 256 * q1) / 2 ^ 24 = byte_val b3).
  { change (2 ^ 24) with (2 ^ 16 * 2 ^ 8).
    rewrite <- Z.div_div by lia. rewrite H16.
    apply split_low_byte. assumption. }
  rewrite H8, H16, H24.
  rewrite (byte_of_Z_low (byte_val b0) q1 b0 eq_refl).
  unfold q1 at 1. rewrite (byte_of_Z_low (byte_val b1) q2 b1 eq_refl).
  unfold q2. rewrite (byte_of_Z_low (byte_val b2) (byte_val b3) b2 eq_refl).
  rewrite byte_of_Z_byte_val. reflexivity.
Qed.

(** X12. Whatever the connection does, a handshake that succeeds has taken
    exactly one name frame from the stream and nothing of the content: the
    bytes the connection held are the four little-endian bytes of the
    name's length, the name, and then what is still unread. *)
Theorem handshake_consumes_exactly_the_frame (r : Receiver) (c : Conn)
    (name : string) (c' : Conn) :
  receiveFileName r c = Some (Ok name, c') ->
  pending (script c)
  = encode_frame (list_byte_of_string name) ++ pending (script c')
  /\ Z.of_nat (length (list_byte_of_string name)) < 2 ^ 32.
Proof.
  unfold receiveFileName, receiveFileNameLen.
  destruct (ReadFull c 4) as [[[hdr [e|]] c1]|] eqn:H1; try discriminate.
  destruct (Uint32 hdr) as [n|] eqn:Hn; [|discriminate].
  destruct (ReadFull c1 (Z.to_nat n)) as [[[nb [e|]] c2]|] eqn:H2;
    try discriminate.
  intros [= <- <-]. rewrite list_byte_of_string_of_list_byte.
  pose proof (ReadFull_nil_length _ _ _ _ H1) as Hl1.
  pose proof (ReadFull_nil_length _ _ _ _ H2) as Hl2.
  apply ReadFull_pending in H1 as [Hp1 Hu1].
  apply ReadFull_pending in H2 as [Hp2 Hu2].
  pose proof (Uint32_range hdr n Hn) as Hrange.
  assert (Hlen : Z.of_nat (length nb) = n) by lia.
  split; [|lia].
  destruct hdr as [|b0 [|b1 [|b2 [|b3 [|b4 hdr]]]]]; simpl in Hl1, Hu1;
    try lia.
  unfold encode_frame. rewrite Hlen, (PutUint32_Uint32 _ _ _ _ _ Hn).
  rewrite Hp1, Hp2, <- app_assoc. reflexivity.
Qed.

Lemma handshake_consumes_exactly_the_frame_witness :
  [x03; x00; x00; x00; x61; x2e; x62; x7a]
  = encode_frame (list_byte_of_string "a.b") ++ [x7a].
Proof.
  exact (proj1 (handshake_consumes_exactly_the_frame (NewReceiver 4 4000)
           (dial_script
              [Data [x03; x00; x00];
               Fail [x00; x61; x2e; x62] (errors_New "timeout");
               Data [x7a]])
           "a.b"
           (mkConn [Data [x7a]]
                   [(3%nat, None); (1%nat, None);
                    (3%nat, Some (errors_New "timeout"))])
           eq_refl)).
Defined.

(** ** Errors and their context *)

(** X13. Every error is returned with the context of the step that
    failed, and none is returned bare.  [discover] fails only on the listen
    or on the read of the datagram; [receiveFile] fails only in the name,
    the create or the content step; [Handle] fails only because discovery
    failed, in which case the world is untouched, because the transfer
    failed, or because the close of the connection failed. *)
Theorem every_error_names_its_step (fuel : nat) (r : Receiver) (env : Env) :
  (forall e,
      discover r env = Some (Err e) ->
      (exists cause, listen_fault env (udpDiscoveryPort r) = Some cause
                     /\ e = Errorf "err starting up udp listener: " cause)
      \/ (exists cause, datagram env = inl cause
                        /\ e = Errorf "err reading from udp: " cause))
  /\ (forall con w e con' w',
      receiveFile fuel r env con w = Some (Some e, con', w') ->
      exists cause,
        e = Errorf "err receiving file name: " cause
        \/ e = Errorf "err creating dest file: " cause
        \/ e = Errorf "err receiving and saving file content: " cause)
  /\ (forall w e w',
      Handle fuel r env w = Some (Some e, w') ->
      (exists cause, discover r env = Some (Err cause)
                     /\ e = Errorf "err searching for discovery msg: " cause
                     /\ w' = w)
      \/ (exists cause, e = Errorf "err receiving file: " cause)
      \/ (exists cause, close_fault env = Some cause
                        /\ e = Errorf "err closing connection: " cause)).
Proof.
  split; [|split].
  - intros e. unfold discover, ReadFromUDP.
    destruct (listen_fault env (udpDiscoveryPort r)) as [c|].
    { intros [= <-]. left. eauto. }
    destruct (datagram env) as [c|d].
    { intros [= <-]. right. eauto. }
    destruct (last _); discriminate.
  - intros con w e con' w'. unfold receiveFile.
    destruct (receiveFileName r con) as [[[fp|c] c1]|]; [| |discriminate].
    2: { intros [= <- _ _]. eauto. }
    destruct (os_Create env _ w) as [[file|c] w1].
    2: { intros [= <- _ _]. eauto. }
    destruct (receiveAndSaveFileContent fuel r c1 file w1)
      as [[[[c|] c2] w2]|]; try discriminate.
    intros [= <- _ _]. eauto.
  - intros w e w'. unfold Handle.
    destruct (discover r env) as [[peer|c]|]; [| |discriminate].
    2: { intros [= <- <-]. left. eauto. }
    cbn [Handle_range]. destruct (dial env peer) as [c|con]; [discriminate|].
    destruct (receiveFile fuel r env con _) as [[[[c|] c2] w2]|];
      [| |discriminate].
    { intros [= <- _]. right. left. eauto. }
    destruct (close_fault env) as [c|]; [|discriminate].
    intros [= <- _]. right. right. eauto.
Qed.

Lemma every_error_names_its_step_witness :
  exists cause,
    errors_New
      "err receiving file: err receiving and saving file content: err receiving file chunk: connection reset by peer"
    = Errorf "err receiving file: " cause.
Proof.
  destruct (every_error_names_its_step 20 (NewReceiver 4 4000) reset_env)
    as (_ & _ & H).
  destruct (H (mkWorld ∅ [] [])
              (errors_New
                 "err receiving file: err receiving and saving file content: err receiving file chunk: connection reset by peer")
              (mkWorld (<["1718000000.b" := list_byte_of_string "xyz"]> ∅)
                       ["connected to peer: localhost:9000"] [])
              eq_refl)
    as [(cause & Hd & _)|[Hc|(cause & Hcl & _)]];
    [discriminate Hd|exact Hc|discriminate Hcl].
Defined.
